(** * dwatcher: the watch / debounce / restart engine of [src/index.js]

    A shallow embedding of the functions of [src/index.js] and the
    properties of the specification settled against them.

    Conventions of the embedding.
    - JavaScript strings are [string]s (sequences of 8-bit code units:
      paths and patterns in the Latin-1 range).
    - A JavaScript call either returns or throws: [outcome].
    - The module-level variables [childProcess], [debounceTimer] and
      [isRestarting] are fields of an explicit [State], together with the
      part of the Node.js runtime the code talks to: the [ChildProcess]
      objects it created, the pending timers and a virtual clock in
      milliseconds.
    - [spawn] is modelled where it returns a child; that it may throw at
      once instead is a parameter of [dwatcher], whose [try] catches it.
    - Console output is not modelled. *)

From Stdlib Require Import String Ascii List Bool ZArith Lia.
Import ListNotations.

Open Scope string_scope.
Open Scope bool_scope.

(** ** Results of JavaScript calls *)

Inductive error : Type :=
  | SyntaxError      (* new RegExp on a malformed source *)
  | ReferenceError   (* reading an identifier that is not declared *)
  | SystemError.     (* a failed file-system call (EACCES, ENOENT, ...) *)

Inductive outcome (A : Type) : Type :=
  | Returned (a : A)
  | Threw (e : error).

Arguments Returned {A} a.
Arguments Threw {A} e.

(** ** String methods used by the source *)

Module JsString.

(** [s.includes(sub)] *)
Fixpoint includes (s sub : string) : bool :=
  prefix sub s ||
  match s with
  | EmptyString => false
  | String _ s' => includes s' sub
  end.

(** [s.endsWith(suffix)] *)
Fixpoint endsWith (s suffix : string) : bool :=
  String.eqb s suffix ||
  match s with
  | EmptyString => false
  | String _ s' => endsWith s' suffix
  end.

(** the characters of [s] from index [n] on *)
Fixpoint drop (n : nat) (s : string) : string :=
  match n, s with
  | O, _ => s
  | S _, EmptyString => EmptyString
  | S n', String _ s' => drop n' s'
  end.

(** [s.replace(pat, by)] with a string pattern: the first occurrence only *)
Fixpoint replace_first (pat by_ s : string) : string :=
  if prefix pat s then by_ ++ drop (String.length pat) s
  else match s with
       | EmptyString => EmptyString
       | String c s' => String c (replace_first pat by_ s')
       end.

(** [s.replace(/\*\*/g, by)]: every pair of stars, left to right, without
    overlap *)
Fixpoint replace_all_star2 (by_ s : string) : string :=
  match s with
  | EmptyString => EmptyString
  | String c s' =>
      match s' with
      | EmptyString => s
      | String c' s'' =>
          if (c =? "*")%char && (c' =? "*")%char
          then by_ ++ replace_all_star2 by_ s''
          else String c (replace_all_star2 by_ s')
      end
  end.

(** [s.replace(/\*/g, by)]: every star *)
Fixpoint replace_all_star (by_ s : string) : string :=
  match s with
  | EmptyString => EmptyString
  | String c s' =>
      if (c =? "*")%char then by_ ++ replace_all_star by_ s'
      else String c (replace_all_star by_ s')
  end.

(** [s.replace(/^\//, '')]: one leading slash is removed *)
Definition strip_leading_slash (s : string) : string :=
  match s with
  | EmptyString => s
  | String c s' => if (c =? "/")%char then s' else s
  end.

End JsString.

(** ** Regular expressions

    The sources that [shouldIgnore] hands to [new RegExp] are made of the
    characters of the pattern, of [.*] and of [[^/]*].  The fragment below
    covers literal characters, [.], the class [[^/]] and the postfix star;
    a source that uses any other syntax character is left to the parameter
    [RegExp_other] of the path filter. *)

Module Regex.

Inductive charclass : Type :=
  | Lit (c : ascii)   (* the character itself *)
  | AnyChar           (* [.] : any character but a line terminator *)
  | NotSlash.         (* [[^/]] *)

Inductive atom : Type :=
  | One (k : charclass)     (* k  *)
  | Many (k : charclass).   (* k* *)

Definition regex : Type := list atom.

Definition line_terminator (a : ascii) : bool :=
  (a =? "010")%char || (a =? "013")%char.

Definition class_matches (k : charclass) (a : ascii) : bool :=
  match k with
  | Lit c => (a =? c)%char
  | AnyChar => negb (line_terminator a)
  | NotSlash => negb (a =? "/")%char
  end.

(** the syntax characters of the pattern grammar, [.] and [*] apart *)
Definition syntax_char (a : ascii) : bool :=
  existsb (Ascii.eqb a)
    ["^"; "$"; "\"; "+"; "?"; "("; ")"; "["; "]"; "{"; "}"; "|"]%char.

Inductive token : Type :=
  | TClass (k : charclass)
  | TStar.

Fixpoint lex (src : string) : option (list token) :=
  match src with
  | EmptyString => Some []
  | String c rest =>
      if (c =? "[")%char then
        match rest with
        | String c1 (String c2 (String c3 rest')) =>
            if (c1 =? "^")%char && (c2 =? "/")%char && (c3 =? "]")%char
            then option_map (cons (TClass NotSlash)) (lex rest')
            else None
        | _ => None
        end
      else if (c =? "*")%char then option_map (cons TStar) (lex rest)
      else if (c =? ".")%char then option_map (cons (TClass AnyChar)) (lex rest)
      else if syntax_char c then None
      else option_map (cons (TClass (Lit c))) (lex rest)
  end.

Fixpoint group (ts : list token) : option regex :=
  match ts with
  | [] => Some []
  | TClass k :: TStar :: ts' => option_map (cons (Many k)) (group ts')
  | TClass k :: ts' => option_map (cons (One k)) (group ts')
  | TStar :: _ => None       (* nothing to repeat *)
  end.

Definition compile (src : string) : option regex :=
  match lex src with
  | Some ts => group ts
  | None => None
  end.

(** does a prefix of [s] match [re]? *)
Fixpoint match_here (re : regex) (s : string) : bool :=
  match re with
  | [] => true
  | One k :: re' =>
      match s with
      | EmptyString => false
      | String a s' => class_matches k a && match_here re' s'
      end
  | Many k :: re' =>
      (fix many (s : string) : bool :=
         match_here re' s ||
         match s with
         | EmptyString => false
         | String a s' => class_matches k a && many s'
         end) s
  end.

(** [re.test(s)] without flags: a match may start anywhere in [s] *)
Fixpoint test (re : regex) (s : string) : bool :=
  match_here re s ||
  match s with
  | EmptyString => false
  | String _ s' => test re s'
  end.

End Regex.

(** ** PathFilter *)

Section PathFilter.

(** [new RegExp(src).test(path)] for the sources outside the fragment of
    [Regex]: whatever the engine does there, a thrown [SyntaxError]
    included. *)
Variable RegExp_other : string -> string -> outcome bool.

Definition RegExp_test (src path : string) : outcome bool :=
  match Regex.compile src with
  | Some re => Returned (Regex.test re path)
  | None => RegExp_other src path
  end.

(** the callback of [ignorePatterns.some] *)
Definition pattern_test (filePath pattern : string) : outcome bool :=
  if JsString.includes pattern "**" then
    RegExp_test
      (JsString.replace_all_star "[^/]*"
         (JsString.replace_all_star2 ".*" pattern))
      filePath
  else if JsString.includes pattern "*" then
    RegExp_test (JsString.replace_all_star ".*" pattern) filePath
  else Returned (JsString.includes filePath pattern).

(** [array.some(f)]: stops at the first [true], and a throw of [f] goes
    through *)
Fixpoint some {A : Type} (f : A -> outcome bool) (l : list A) : outcome bool :=
  match l with
  | [] => Returned false
  | x :: l' =>
      match f x with
      | Returned true => Returned true
      | Returned false => some f l'
      | Threw e => Threw e
      end
  end.

Definition shouldIgnore (filePath : string) (ignorePatterns : list string)
  : outcome bool :=
  some (pattern_test filePath) ignorePatterns.

Definition shouldWatch (filePath : string) (watchExtensions : list string)
  : bool :=
  match watchExtensions with
  | [] => true
  | _ => existsb (JsString.endsWith filePath) watchExtensions
  end.

End PathFilter.

(** ** DirectoryEnumerator *)

(** The directory tree as [readdir(path, {withFileTypes: true})] shows it:
    an entry is a directory or something else, and reading a directory
    gives its entries or throws. *)
#[warnings="-register-all"]
Inductive dirent : Type :=
  | File (name : string)
  | Directory (name : string) (contents : outcome (list dirent)).

Section DirectoryEnumerator.

Variable RegExp_other : string -> string -> outcome bool.

(** [path.join] *)
Variable join : string -> string -> string.

Variable rootPath : string.
Variable ignorePatterns : list string.

(** [fullPath.replace(rootPath, '').replace(/^\//, '')] *)
Definition relativize (fullPath : string) : string :=
  JsString.strip_leading_slash (JsString.replace_first rootPath "" fullPath).

(** the [for (const entry of entries)] loop of [traverse(dirPath)], with
    the array [directories] as it stands; [traverse] is the function
    itself, for the call on a subdirectory.  The first component of the
    result tells whether the loop completed or threw. *)
Definition for_entries
    (traverse : string -> dirent -> list string -> outcome unit * list string)
    (dirPath : string)
  : list dirent -> list string -> outcome unit * list string :=
  fix loop (entries : list dirent) (directories : list string) :=
    match entries with
    | [] => (Returned tt, directories)
    | entry :: entries' =>
        match entry with
        | File _ => loop entries' directories            (* continue *)
        | Directory name _ =>
            let fullPath := join dirPath name in
            match shouldIgnore RegExp_other (relativize fullPath)
                    ignorePatterns with
            | Threw e => (Threw e, directories)
            | Returned true => loop entries' directories (* continue *)
            | Returned false =>
                match traverse fullPath entry
                        (directories ++ [fullPath])%list with
                | (Returned _, directories') => loop entries' directories'
                | (Threw e, directories') => (Threw e, directories')
                end
            end
        end
    end.

(** [traverse(dirPath)], [node] being what is at [dirPath].  The body of
    the [try] is [readdir], which throws on what is not a directory and on
    a directory that cannot be read, followed by the loop; [catch {}] drops
    a throw of either. *)
Fixpoint traverse (dirPath : string) (node : dirent)
    (directories : list string) {struct node} : outcome unit * list string :=
  match node with
  | File _ => (Returned tt, directories)           (* readdir threw *)
  | Directory _ (Threw _) => (Returned tt, directories)
  | Directory _ (Returned entries) =>
      (Returned tt, snd (for_entries traverse dirPath entries directories))
  end.

Definition getWatchDirectories (root : dirent) : outcome (list string) :=
  let directories := [rootPath] in
  match traverse rootPath root directories with
  | (Returned _, directories') => Returned directories'
  | (Threw e, _) => Threw e
  end.

(** The enumeration as a function on the tree, with the path test as the
    code computes it: the subdirectories of a directory, in order, each
    followed by its own enumeration, leaving out those that the test
    ignores and giving nothing for a directory that cannot be read. *)
Definition ignored (fullPath : string) : bool :=
  match shouldIgnore RegExp_other (relativize fullPath) ignorePatterns with
  | Returned true => true
  | _ => false
  end.

Definition subdirectories
    (descend : string -> dirent -> list string) (dirPath : string)
  : list dirent -> list string :=
  fix each (entries : list dirent) : list string :=
    match entries with
    | [] => []
    | File _ :: entries' => each entries'
    | (Directory name _ as entry) :: entries' =>
        let fullPath := join dirPath name in
        if ignored fullPath then each entries'
        else ((fullPath :: descend fullPath entry) ++ each entries')%list
    end.

Fixpoint descend (dirPath : string) (node : dirent) {struct node}
  : list string :=
  match node with
  | File _ => []
  | Directory _ (Threw _) => []
  | Directory _ (Returned entries) => subdirectories descend dirPath entries
  end.

Definition enumerate (root : dirent) : list string :=
  rootPath :: descend rootPath root.

(** The enumeration in the words of the specification, on root-relative
    paths.  [segments] are the names from the root down to a directory, and
    its root-relative path is these names joined by [/].  The
    subdirectories of a directory are listed in order, each followed by
    what is listed below it; one whose root-relative path matches an ignore
    pattern is left out with all that is below it; a directory that cannot
    be read has nothing listed below it. *)
Definition relative_path (segments : list string) : string :=
  String.concat "/" segments.

Definition pruned (segments : list string) : bool :=
  match shouldIgnore RegExp_other (relative_path segments) ignorePatterns with
  | Returned true => true
  | _ => false
  end.

Definition listed_entries
    (listed : list string -> dirent -> list string) (segments : list string)
  : list dirent -> list string :=
  fix each (entries : list dirent) : list string :=
    match entries with
    | [] => []
    | File _ :: entries' => each entries'
    | (Directory name _ as entry) :: entries' =>
        let below := (segments ++ [name])%list in
        if pruned below then each entries'
        else ((relative_path below :: listed below entry) ++ each entries')%list
    end.

Fixpoint listed (segments : list string) (node : dirent) {struct node}
  : list string :=
  match node with
  | File _ => []
  | Directory _ (Threw _) => []
  | Directory _ (Returned entries) => listed_entries listed segments entries
  end.

(** the root, then the listed directories by their paths under the root *)
Definition listing (root : dirent) : list string :=
  rootPath :: map (fun rel => rootPath ++ "/" ++ rel) (listed [] root).

End DirectoryEnumerator.

(** ** The runtime: child processes, timers, the clock *)

Inductive signal : Type := SIGTERM | SIGKILL.

(** A [ChildProcess] object of Node.js.  [killed] is the property of that
    name: [kill()] sets it as soon as a signal has been delivered, whether or
    not the process has ended.  [running] tells that the process has not
    ended (no ['exit'] emitted yet). *)
Record ChildProcess : Type := mkChild {
  killed : bool;
  running : bool
}.

Record Options : Type := mkOptions {
  debounceMs : Z;
  ignorePatterns : list string;
  watchExtensions : list string;
  verbose : bool;
  clear : bool
}.

(** The two functions that the source hands to [setTimeout]. *)
Inductive callback : Type :=
  | ForceKill                                     (* in killTargetApp *)
  | Restart (command : string) (args : list string) (options : Options).
                                                  (* in handleFileChange *)

Record timer : Type := mkTimer {
  handle : nat;
  due : Z;
  action : callback
}.

(** What the supervisor does to the outside, with the time it does it at. *)
Inductive effect : Type :=
  | Spawned (at_ : Z) (pid : nat)
  | Signalled (at_ : Z) (pid : nat) (sig : signal)
  | Restarting (at_ : Z).       (* the debounce callback runs *)

Record State : Type := mkState {
  childProcess : option nat;      (* let childProcess = null *)
  debounceTimer : option nat;     (* let debounceTimer = null *)
  isRestarting : bool;            (* let isRestarting = false *)
  children : list ChildProcess;   (* the objects made by spawn, by number *)
  timers : list timer;            (* pending timers, in the order armed *)
  next_handle : nat;
  now : Z;
  trace : list effect
}.

Definition initial : State :=
  mkState None None false [] [] 0 0 [].

Module Runtime.

Definition set_childProcess (c : option nat) (st : State) : State :=
  mkState c (debounceTimer st) (isRestarting st) (children st) (timers st)
    (next_handle st) (now st) (trace st).

Definition set_debounceTimer (d : option nat) (st : State) : State :=
  mkState (childProcess st) d (isRestarting st) (children st) (timers st)
    (next_handle st) (now st) (trace st).

Definition set_isRestarting (b : bool) (st : State) : State :=
  mkState (childProcess st) (debounceTimer st) b (children st) (timers st)
    (next_handle st) (now st) (trace st).

Definition set_children (cs : list ChildProcess) (st : State) : State :=
  mkState (childProcess st) (debounceTimer st) (isRestarting st) cs
    (timers st) (next_handle st) (now st) (trace st).

Definition set_timers (ts : list timer) (st : State) : State :=
  mkState (childProcess st) (debounceTimer st) (isRestarting st)
    (children st) ts (next_handle st) (now st) (trace st).

Definition set_now (t : Z) (st : State) : State :=
  mkState (childProcess st) (debounceTimer st) (isRestarting st)
    (children st) (timers st) (next_handle st) t (trace st).

Definition emit (e : effect) (st : State) : State :=
  mkState (childProcess st) (debounceTimer st) (isRestarting st)
    (children st) (timers st) (next_handle st) (now st)
    (trace st ++ [e]).

Definition child (pid : nat) (st : State) : ChildProcess :=
  nth pid (children st) (mkChild false false).

Fixpoint update {A : Type} (n : nat) (x : A) (l : list A) : list A :=
  match l, n with
  | [], _ => []
  | _ :: l', O => x :: l'
  | y :: l', S n' => y :: update n' x l'
  end.

(** [spawn(...)]: a new object, its process running *)
Definition spawn (st : State) : nat * State :=
  let pid := length (children st) in
  (pid, emit (Spawned (now st) pid)
          (set_children (children st ++ [mkChild false true]) st)).

(** [child.kill(sig)]: the signal goes out if the process has not ended,
    and [killed] is set then. *)
Definition kill (pid : nat) (sig : signal) (st : State) : State :=
  if running (child pid st) then
    emit (Signalled (now st) pid sig)
      (set_children
         (update pid (mkChild true (running (child pid st))) (children st))
         st)
  else st.

(** The delay of a timer: outside 1 .. 2^31-1 it is 1. *)
Definition delay_of (ms : Z) : Z :=
  if (1 <=? ms)%Z && (ms <=? 2147483647)%Z then ms else 1%Z.

(** [setTimeout(f, ms)] *)
Definition setTimeout (f : callback) (ms : Z) (st : State) : nat * State :=
  let h := next_handle st in
  (h, mkState (childProcess st) (debounceTimer st) (isRestarting st)
        (children st)
        (timers st ++ [mkTimer h (now st + delay_of ms) f])
        (S h) (now st) (trace st)).

(** [clearTimeout(h)] *)
Definition clearTimeout (h : nat) (st : State) : State :=
  set_timers (filter (fun t => negb (handle t =? h)%nat) (timers st)) st.

End Runtime.

Import Runtime.

(** ** ProcessSupervisor and DebounceController *)

(** [killTargetApp()] *)
Definition killTargetApp (st : State) : State :=
  match childProcess st with
  | None => st
  | Some pid =>
      let st := set_isRestarting true st in
      let st := kill pid SIGTERM st in
      snd (setTimeout ForceKill 5000 st)
  end.

(** the function armed by [killTargetApp] *)
Definition forceKill (st : State) : State :=
  let st :=
    match childProcess st with
    | Some pid =>
        if negb (killed (child pid st)) then
          (* stdout and stderr are null under stdio: 'inherit' *)
          set_childProcess None (kill pid SIGKILL st)
        else st
    | None => st
    end in
  set_isRestarting false st.

(** [startTargetApp(command, args, options)]: the running child is asked to
    stop, the child is spawned at once and held in [childProcess].  The
    handlers it registers on the new child are [on_exit] and [on_error]
    below. *)
Definition startTargetApp (command : string) (args : list string)
    (options : Options) (st : State) : State :=
  let st := match childProcess st with
            | Some _ => killTargetApp st
            | None => st
            end in
  let (pid, st) := spawn st in
  set_childProcess (Some pid) st.

(** the ['exit'] handler of a child: a line is logged when the exit was not
    expected (guard off, non-zero code, not SIGTERM) and [verbose] is set;
    then the variable [childProcess] is cleared, whichever child it holds *)
Definition on_exit (options : Options) (code : option Z)
    (sig : option signal) (st : State) : State :=
  set_childProcess None st.

(** the ['error'] handler of a child *)
Definition on_error (st : State) : State :=
  set_childProcess None st.

(** the function armed by [handleFileChange] *)
Definition restart (command : string) (args : list string)
    (options : Options) (st : State) : State :=
  startTargetApp command args options (emit (Restarting (now st)) st).

(** [handleFileChange(filename, eventType, options, command, args)] *)
Definition handleFileChange (filename eventType : string) (options : Options)
    (command : string) (args : list string) (st : State) : State :=
  if isRestarting st then st
  else
    let st := match debounceTimer st with
              | Some h => clearTimeout h st
              | None => st
              end in
    let (h, st) := setTimeout (Restart command args options)
                     (debounceMs options) st in
    set_debounceTimer (Some h) st.

(** ** The event loop *)

Definition run_callback (f : callback) (st : State) : State :=
  match f with
  | ForceKill => forceKill st
  | Restart command args options => restart command args options st
  end.

(** the pending timer that is due first; among equals, the one armed first *)
Fixpoint earliest (ts : list timer) : option timer :=
  match ts with
  | [] => None
  | t :: ts' =>
      match earliest ts' with
      | Some u => if (due u <? due t)%Z then Some u else Some t
      | None => Some t
      end
  end.

Definition next_due (target : Z) (st : State) : option timer :=
  match earliest (timers st) with
  | Some t => if (due t <=? target)%Z then Some t else None
  | None => None
  end.

(** a timer fires: it leaves the pending ones, the clock is at its time, its
    function runs *)
Definition fire (t : timer) (st : State) : State :=
  run_callback (action t)
    (set_now (Z.max (now st) (due t)) (clearTimeout (handle t) st)).

Fixpoint run_timers (fuel : nat) (target : Z) (st : State) : State :=
  match fuel with
  | O => st
  | S fuel' =>
      match next_due target st with
      | Some t => run_timers fuel' target (fire t st)
      | None => st
      end
  end.

(** A [Restart] may arm one [ForceKill]; a [ForceKill] arms nothing. *)
Definition weight (t : timer) : nat :=
  match action t with
  | ForceKill => 1
  | Restart _ _ _ => 2
  end.

Definition budget (st : State) : nat :=
  list_sum (map weight (timers st)).

(** the clock moves to [target]: every timer due by then fires, in order *)
Definition advance (target : Z) (st : State) : State :=
  let st' := run_timers (budget st) target st in
  set_now (Z.max (now st') target) st'.

(** What reaches the supervisor from outside. *)
Inductive event : Type :=
  | Change (filename eventType : string)     (* a change that passed the filter *)
  | Exit (pid : nat) (code : option Z) (sig : option signal)
  | SpawnError (pid : nat).

Section Orchestrator.

Variable command : string.
Variable args : list string.
Variable options : Options.

Definition ended (pid : nat) (st : State) : State :=
  set_children
    (update pid (mkChild (killed (child pid st)) false) (children st)) st.

Definition dispatch (ev : event) (st : State) : State :=
  match ev with
  | Change filename eventType =>
      handleFileChange filename eventType options command args st
  | Exit pid code sig =>
      if running (child pid st)
      then on_exit options code sig (ended pid st)
      else st                   (* 'exit' is emitted once *)
  | SpawnError pid =>
      if running (child pid st)
      then on_error (ended pid st)
      else st
  end.

(** the events of a schedule, each at its time *)
Fixpoint run (schedule : list (Z * event)) (st : State) : State :=
  match schedule with
  | [] => st
  | (t, ev) :: schedule' => run schedule' (dispatch ev (advance t st))
  end.

End Orchestrator.

(** ** WatchSet: the callback of a watcher *)

Section Watcher.

Variable RegExp_other : string -> string -> outcome bool.
Variable join : string -> string -> string.

(** [process.cwd()] *)
Variable cwd : string.

(** the function that [setupWatchers] hands to [watch(directory, ...)];
    [filename] may be null.  In the ignored branch the source reads the
    identifier [returns], which nothing declares. *)
Definition watchCallback (directory : string) (options : Options)
    (command : string) (args : list string)
    (eventType : string) (filename : option string) (st : State)
  : outcome State :=
  match filename with
  | None => Returned st
  | Some EmptyString => Returned st
  | Some filename =>
      let fullPath := join directory filename in
      let relativePath := JsString.replace_first (cwd ++ "/") "" fullPath in
      match shouldIgnore RegExp_other relativePath (ignorePatterns options) with
      | Threw e => Threw e
      | Returned true => Threw ReferenceError
      | Returned false =>
          if negb (shouldWatch relativePath (watchExtensions options))
          then Returned st
          else Returned (handleFileChange relativePath eventType options
                           command args st)
      end
  end.

End Watcher.

(** ** Notions used by the properties *)

(** the times at which the debounce callback ran *)
Definition restarts (st : State) : list Z :=
  flat_map (fun e => match e with Restarting t => [t] | _ => [] end) (trace st).



(** the forceful kills issued *)
Definition forced (st : State) : list effect :=
  filter (fun e => match e with Signalled _ _ SIGKILL => true | _ => false end)
    (trace st).

(** how many of the children have not ended *)
Definition running_children (st : State) : nat :=
  length (filter running (children st)).

Definition is_restart (f : callback) : bool :=
  match f with
  | Restart _ _ _ => true
  | ForceKill => false
  end.

(** PendingRestart: every pending debounce timer is the one that
    [debounceTimer] holds, handles are not shared, and nothing pending is
    due in the past. *)
Record wf (st : State) : Prop := mkWf {
  wf_debounce : forall t, In t (timers st) -> is_restart (action t) = true ->
                          debounceTimer st = Some (handle t);
  wf_handles : NoDup (map handle (timers st));
  wf_fresh : forall t, In t (timers st) -> (handle t < next_handle st)%nat;
  wf_future : forall t, In t (timers st) -> (now st <= due t)%Z
}.

(** a step of the supervisor that leaves the debounce timer alone: it may
    arm the force-kill fallback, and nothing else changes in the queue *)
Record frame (st st' : State) : Prop := mkFrame {
  frame_debounce : debounceTimer st' = debounceTimer st;
  frame_now : now st' = now st;
  frame_restarts : restarts st' = restarts st;
  frame_timers :
    (timers st' = timers st /\ next_handle st' = next_handle st) \/
    (timers st' = (timers st ++ [mkTimer (next_handle st) (now st + 5000) ForceKill])%list /\
     next_handle st' = S (next_handle st))
}.


Definition is_change (ev : event) : bool :=
  match ev with
  | Change _ _ => true
  | _ => false
  end.



Definition sample_tree : dirent :=
  Directory "proj" (Returned
    [ File "package.json";
      Directory "node_modules"
        (Returned [Directory "express" (Returned [Directory "lib" (Returned [])])]);
      Directory "secret" (Threw SystemError);
      Directory "src" (Returned [File "index.js"; Directory "util" (Returned [])]);
      Directory "dist" (Returned [Directory "x" (Returned [])]) ]).

(** a tree at [/srv/build/app], a root whose own path holds [build/] *)
Definition build_tree : dirent :=
  Directory "app" (Returned
    [ File "package.json";
      Directory "src"
        (Returned [Directory "build" (Returned [Directory "out" (Returned [])])]);
      Directory "secret" (Threw SystemError);
      Directory "dist" (Returned [Directory "x" (Returned [])]);
      Directory "test" (Returned []) ]).

(** ** Sample data *)

Definition sample_options : Options :=
  mkOptions 100 ["node_modules/**"; "*.log"] [".js"; ".ts"] false true.

(** the supervisor right after start-up: one child, nothing pending *)
Definition started : State :=
  startTargetApp "node" ["server.js"] sample_options initial.

Definition change : event := Change "src/x.js" "change".

(** at most one child has not ended *)
Definition at_most_one_child (st : State) : Prop :=
  (running_children st <= 1)%nat.

(** the stop sequence is over: the guard is off and no fallback is pending *)
Definition stop_settled (st : State) : Prop :=
  isRestarting st = false /\
  forall t, In t (timers st) -> action t <> ForceKill.

(** the child of [started] is asked to stop at time 0 and ends by itself one
    second later *)
Definition stopped_early : State :=
  run "node" ["server.js"] sample_options
    [(1000%Z, Exit 0 None (Some SIGTERM))] (killTargetApp started).

(** a change at time 0, the restart it causes at 100, and the old child
    ending by itself at 400 *)
Definition restarted_early : State :=
  run "node" ["server.js"] sample_options
    [(0%Z, Change "src/x.js" "change"); (400%Z, Exit 0 None (Some SIGTERM))]
    started.

Definition no_RegExp_other (src path : string) : outcome bool :=
  Threw SyntaxError.

(** [path.join] on a directory and a plain name *)
Definition join_slash (a b : string) : string := a ++ "/" ++ b.

(** the child of [started] is asked to stop and ignores it for 5000 ms *)
Definition stop_ignored : State :=
  advance 5000 (killTargetApp started).

(** a change at time 0, the restart it causes at 100, and the old child
    ignoring the signal until 5100 *)
Definition restart_ignored : State :=
  advance 5100 (run "node" ["server.js"] sample_options [(0%Z, change)] started).

(** ** Readings of a pattern *)

(** What a regular expression of the fragment matches, as a relation. *)
Inductive Matches : Regex.regex -> string -> Prop :=
  | Matches_nil : Matches [] ""
  | Matches_one (k : Regex.charclass) (re : Regex.regex) (a : ascii) (s : string) :
      Regex.class_matches k a = true -> Matches re s ->
      Matches (Regex.One k :: re) (String a s)
  | Matches_many_none (k : Regex.charclass) (re : Regex.regex) (s : string) :
      Matches re s -> Matches (Regex.Many k :: re) s
  | Matches_many_more (k : Regex.charclass) (re : Regex.regex) (a : ascii)
      (s : string) :
      Regex.class_matches k a = true -> Matches (Regex.Many k :: re) s ->
      Matches (Regex.Many k :: re) (String a s).

(** [path] has [part] in it *)
Definition occurs (part path : string) : Prop :=
  exists before after, path = before ++ part ++ after.

(** a character of a pattern that is not a syntax character of regular
    expressions, [.] and [*] apart *)
Definition plain (pattern : string) : bool :=
  forallb (fun c => negb (Regex.syntax_char c)) (list_ascii_of_string pattern).

Definition starless (pattern : string) : bool :=
  forallb (fun c => negb (c =? "*")%char) (list_ascii_of_string pattern).

(** A pattern with single stars, read as the code does: a star is any run
    of characters other than line terminators, a dot any one of them, any
    other character itself. *)
Fixpoint glob_regex (pattern : string) : Regex.regex :=
  match pattern with
  | EmptyString => []
  | String c pattern' =>
      (if (c =? "*")%char then Regex.Many Regex.AnyChar
       else if (c =? ".")%char then Regex.One Regex.AnyChar
       else Regex.One (Regex.Lit c)) :: glob_regex pattern'
  end.

(** The same pattern read as the specification words it: a star stays
    within one path segment. *)
Fixpoint segment_regex (pattern : string) : Regex.regex :=
  match pattern with
  | EmptyString => []
  | String c pattern' =>
      (if (c =? "*")%char then Regex.Many Regex.NotSlash
       else if (c =? ".")%char then Regex.One Regex.AnyChar
       else Regex.One (Regex.Lit c)) :: segment_regex pattern'
  end.

(** the source that [shouldIgnore] compiles for [pattern], if any *)
Definition regexp_source (pattern : string) : option string :=
  if JsString.includes pattern "**" then
    Some (JsString.replace_all_star "[^/]*"
            (JsString.replace_all_star2 ".*" pattern))
  else if JsString.includes pattern "*" then
    Some (JsString.replace_all_star ".*" pattern)
  else None.

(** the patterns whose source, if any, is in the fragment of [Regex] *)
Definition in_fragment (pattern : string) : bool :=
  match regexp_source pattern with
  | Some src => match Regex.compile src with Some _ => true | None => false end
  | None => true
  end.

(** a token list that does not begin with a star *)
Definition starts_with_class (ts : list Regex.token) : Prop :=
  match ts with
  | Regex.TStar :: _ => False
  | _ => True
  end.

(** ** Notions used by the further properties *)

(** the pending debounce timers *)
Definition pending_restarts (st : State) : list timer :=
  filter (fun t => is_restart (action t)) (timers st).

(** the children that were sent a signal, in the order of the signals *)
Definition signalled (tr : list effect) : list nat :=
  flat_map (fun e => match e with
                     | Signalled _ pid _ => [pid]
                     | _ => []
                     end) tr.

(** The child held in [childProcess] exists and was never signalled; the
    children that were signalled have [killed] set; none was signalled
    twice. *)
Record tidy (st : State) : Prop := mkTidy {
  tidy_held : forall pid, childProcess st = Some pid ->
                          (pid < length (children st))%nat /\
                          killed (child pid st) = false;
  tidy_signalled : forall pid, In pid (signalled (trace st)) ->
                               killed (child pid st) = true;
  tidy_once : NoDup (signalled (trace st))
}.

(** right after a restart at time 0: the guard is on and the fallback is
    pending for 5000 *)
Definition restarting : State :=
  startTargetApp "node" ["server.js"] sample_options started.

(** ** WatchSet: the set of watchers *)

(** [fileWatchers] is the [Set] of the source, with the watchers in the
    order they were added; a watcher is a number.  [open_handles] holds the
    watchers that [watch] made and that were not closed, each with its
    directory. *)
Record WatchSet : Type := mkWatchSet {
  fileWatchers : list nat;
  open_handles : list (nat * string);
  next_watcher : nat
}.

Definition no_watchers : WatchSet := mkWatchSet [] [] 0.

Section WatchSetOps.

(** whether [watch(directory, {recursive: true}, ...)] returns a watcher;
    it throws otherwise *)
Variable watchable : string -> bool.

(** [watcher.close()] *)
Definition close (w : nat) (ws : WatchSet) : WatchSet :=
  mkWatchSet (fileWatchers ws)
    (filter (fun h => negb (fst h =? w)%nat) (open_handles ws))
    (next_watcher ws).

(** [fileWatchers.forEach(watcher => watcher.close())] *)
Definition close_all (ws : WatchSet) : WatchSet :=
  fold_left (fun ws w => close w ws) (fileWatchers ws) ws.

(** [fileWatchers.clear()] *)
Definition clear_set (ws : WatchSet) : WatchSet :=
  mkWatchSet [] (open_handles ws) (next_watcher ws).

(** [watch(directory, ...)] *)
Definition watch (directory : string) (ws : WatchSet) : outcome nat * WatchSet :=
  if watchable directory then
    (Returned (next_watcher ws),
     mkWatchSet (fileWatchers ws)
       (open_handles ws ++ [(next_watcher ws, directory)])
       (S (next_watcher ws)))
  else (Threw SystemError, ws).

(** [fileWatchers.add(watcher)] *)
Definition add_watcher (w : nat) (ws : WatchSet) : WatchSet :=
  mkWatchSet
    (if existsb (Nat.eqb w) (fileWatchers ws) then fileWatchers ws
     else fileWatchers ws ++ [w])
    (open_handles ws) (next_watcher ws).

(** [setupWatchers(directories, options, command, args)]: the function
    handed to [watch] is [watchCallback directory options command args];
    a directory whose [watch] throws is skipped *)
Definition setupWatchers (directories : list string) (ws : WatchSet) : WatchSet :=
  let ws := close_all ws in
  let ws := clear_set ws in
  fold_left
    (fun ws directory =>
       match watch directory ws with
       | (Returned watcher, ws') => add_watcher watcher ws'
       | (Threw _, ws') => ws'
       end)
    directories ws.

(** the test of the periodic refresh in [dwatcher], on the directories
    just enumerated *)
Definition refresh (newDirectories : list string) (ws : WatchSet) : WatchSet :=
  if negb (length newDirectories =? length (fileWatchers ws))%nat
  then setupWatchers newDirectories ws
  else ws.

End WatchSetOps.

(** the watchers of the set are the open ones, and their numbers are used *)
Record synced (ws : WatchSet) : Prop := mkSynced {
  synced_set : map fst (open_handles ws) = fileWatchers ws;
  synced_fresh : forall w, In w (fileWatchers ws) -> (w < next_watcher ws)%nat
}.

(** ** Orchestrator *)

Definition DEFAULT_CONFIG : Options :=
  mkOptions 300
    ["node_modules/**"; ".git/**"; "*.log"; "dist/**"; "build/**";
     "coverage/**"; ".nyc_output/**"; "*.tmp"; "*.temp"]
    [".js"; ".mjs"; ".json"; ".ts"; ".jsx"; ".tsx"]
    false true.

(** The [options] object given to [dwatcher]: a field is absent or holds a
    value of its type. *)
Record UserOptions : Type := mkUserOptions {
  u_debounceMs : option Z;
  u_ignorePatterns : option (list string);
  u_watchExtensions : option (list string);
  u_verbose : option bool;
  u_clear : option bool;
  u_watchPath : option string
}.

Definition no_options : UserOptions :=
  mkUserOptions None None None None None None.

(** [{ ...DEFAULT_CONFIG, ...options }], [watchPath] apart *)
Definition merge (u : UserOptions) : Options :=
  mkOptions
    (match u_debounceMs u with Some v => v | None => debounceMs DEFAULT_CONFIG end)
    (match u_ignorePatterns u with
     | Some v => v
     | None => ignorePatterns DEFAULT_CONFIG
     end)
    (match u_watchExtensions u with
     | Some v => v
     | None => watchExtensions DEFAULT_CONFIG
     end)
    (match u_verbose u with Some v => v | None => verbose DEFAULT_CONFIG end)
    (match u_clear u with Some v => v | None => clear DEFAULT_CONFIG end).

(** How a call of [dwatcher] ends its start-up. *)
Inductive startup : Type :=
  | Rejected          (* throw new Error('No command specified to run') *)
  | ExitFailure       (* the catch: process.exit(1) *)
  | Watching (ws : WatchSet) (st : State) (config : Options)
      (watchPath : string).

Section Dwatcher.

Variable RegExp_other : string -> string -> outcome bool.
Variable join : string -> string -> string.
Variable watchable : string -> bool.

(** [path.resolve] and [process.cwd()] *)
Variable resolve : string -> string.
Variable cwd : string.

(** whether [spawn(command, args, ...)] throws at once instead of returning
    a child, as it does on arguments that it refuses (a NUL byte in the
    command, for one); [startTargetApp] above is the function where
    [spawn] returns *)
Variable spawn_throws : string -> list string -> bool.

(** [resolve(config.watchPath || process.cwd())] *)
Definition watchPath_of (u : UserOptions) : string :=
  resolve (match u_watchPath u with
           | Some p => if String.eqb p "" then cwd else p
           | None => cwd
           end).

(** [dwatcher(command, args, options)] up to the start of the child, [root]
    being what is at the watch path.  The [try] holds the enumeration, the
    opening of the watchers and [startTargetApp]; a throw of any of them
    goes to the [catch], which leaves with [process.exit(1)]. *)
Definition dwatcher (command : string) (args : list string) (u : UserOptions)
    (root : dirent) (ws : WatchSet) (st : State) : startup :=
  let config := merge u in
  let watchPath := watchPath_of u in
  if String.eqb command "" then Rejected
  else
    match getWatchDirectories RegExp_other join watchPath
            (ignorePatterns config) root with
    | Threw _ => ExitFailure
    | Returned directories =>
        let ws := setupWatchers watchable directories ws in
        if spawn_throws command args then ExitFailure
        else
          let st := startTargetApp command args config st in
          Watching ws st config watchPath
    end.

(** the function of [setInterval] in [dwatcher]: a throw of the
    enumeration is caught and leaves the set as it is *)
Definition refresh_tick (watchPath : string) (config : Options)
    (root : dirent) (ws : WatchSet) : WatchSet :=
  match getWatchDirectories RegExp_other join watchPath
          (ignorePatterns config) root with
  | Returned newDirectories => refresh watchable newDirectories ws
  | Threw _ => ws
  end.

End Dwatcher.

(** [spawn] refuses a string with a NUL byte: under [shell: true] the
    command and its arguments make the line handed to the shell *)
Definition nul_byte_throws (command : string) (args : list string) : bool :=
  existsb (fun s => JsString.includes s (String "000" ""))
    (command :: args).



(** ** The command line *)

(** [s.split(sep)] with a separator of one character *)
Fixpoint split_on (sep : ascii) (s : string) : list string :=
  match s with
  | EmptyString => [EmptyString]
  | String c s' =>
      if (c =? sep)%char then EmptyString :: split_on sep s'
      else match split_on sep s' with
           | part :: parts => String c part :: parts
           | [] => [String c EmptyString]
           end
  end.

(** The [options] object that [run] fills: a field is absent or set.  An
    element of [ignorePatterns], and [watchPath], may be [undefined]
    ([None] inside), when the option came last on the line. *)
Record CliOptions : Type := mkCliOptions {
  c_debounceMs : option Z;
  c_ignorePatterns : option (list (option string));
  c_watchExtensions : option (list string);
  c_verbose : option bool;
  c_clear : option bool;
  c_watchPath : option (option string)
}.

Definition no_cli_options : CliOptions :=
  mkCliOptions None None None None None None.

(** How the loop over the arguments ends. *)
Inductive parsed : Type :=
  | Parsed (command : string) (commandArgs : list string) (o : CliOptions)
  | ExtMissing.   (* --ext came last: undefined.split throws TypeError *)

(** How [run(argv)] ends. *)
Inductive cli_result : Type :=
  | ShowHelp
  | ExitNoCommand         (* process.exit(1) *)
  | CliThrows             (* the TypeError of --ext *)
  | Launch (command : string) (commandArgs : list string) (o : CliOptions).
                          (* dwatcher(command, commandArgs, options) *)

Section CommandLine.

(** [parseInt(x, 10)], [x] being a string or [undefined]; [None] is NaN *)
Variable parseInt10 : option string -> option Z.

(** [parseInt(args[++i], 10) || DEFAULT_CONFIG.debounceMs] *)
Definition debounce_of (value : option string) : Z :=
  match parseInt10 value with
  | Some n => if (n =? 0)%Z then debounceMs DEFAULT_CONFIG else n
  | None => debounceMs DEFAULT_CONFIG
  end.

(** [options.ignorePatterns = options.ignorePatterns ||
    [...DEFAULT_CONFIG.ignorePatterns]; options.ignorePatterns.push(value)] *)
Definition push_ignore (value : option string) (o : CliOptions) : CliOptions :=
  mkCliOptions (c_debounceMs o)
    (Some ((match c_ignorePatterns o with
            | Some patterns => patterns
            | None => map Some (ignorePatterns DEFAULT_CONFIG)
            end) ++ [value])%list)
    (c_watchExtensions o) (c_verbose o) (c_clear o) (c_watchPath o).

(** [value.split(',').map(ext => ext.startsWith('.') ? ext : `.${ext}`)] *)
Definition extensions_of (value : string) : list string :=
  map (fun ext => if prefix "." ext then ext else "." ++ ext)
    (split_on "," value).

(** the [while] loop of [run]: [args] is what is left from index [i] on *)
Fixpoint parse_loop (args : list string) (command : string)
    (commandArgs : list string) (o : CliOptions) {struct args} : parsed :=
  match args with
  | [] => Parsed command commandArgs o
  | arg :: rest =>
      if prefix "--" arg then
        if String.eqb arg "--debounce" then
          match rest with
          | value :: rest' =>
              parse_loop rest' command commandArgs
                (mkCliOptions (Some (debounce_of (Some value)))
                   (c_ignorePatterns o) (c_watchExtensions o) (c_verbose o)
                   (c_clear o) (c_watchPath o))
          | [] =>
              Parsed command commandArgs
                (mkCliOptions (Some (debounce_of None))
                   (c_ignorePatterns o) (c_watchExtensions o) (c_verbose o)
                   (c_clear o) (c_watchPath o))
          end
        else if String.eqb arg "--ignore" then
          match rest with
          | value :: rest' =>
              parse_loop rest' command commandArgs (push_ignore (Some value) o)
          | [] => Parsed command commandArgs (push_ignore None o)
          end
        else if String.eqb arg "--ext" then
          match rest with
          | value :: rest' =>
              parse_loop rest' command commandArgs
                (mkCliOptions (c_debounceMs o) (c_ignorePatterns o)
                   (Some (extensions_of value)) (c_verbose o) (c_clear o)
                   (c_watchPath o))
          | [] => ExtMissing
          end
        else if String.eqb arg "--verbose" then
          parse_loop rest command commandArgs
            (mkCliOptions (c_debounceMs o) (c_ignorePatterns o)
               (c_watchExtensions o) (Some true) (c_clear o) (c_watchPath o))
        else if String.eqb arg "--no-clear" then
          parse_loop rest command commandArgs
            (mkCliOptions (c_debounceMs o) (c_ignorePatterns o)
               (c_watchExtensions o) (c_verbose o) (Some false) (c_watchPath o))
        else if String.eqb arg "--watch" then
          match rest with
          | value :: rest' =>
              parse_loop rest' command commandArgs
                (mkCliOptions (c_debounceMs o) (c_ignorePatterns o)
                   (c_watchExtensions o) (c_verbose o) (c_clear o)
                   (Some (Some value)))
          | [] =>
              Parsed command commandArgs
                (mkCliOptions (c_debounceMs o) (c_ignorePatterns o)
                   (c_watchExtensions o) (c_verbose o) (c_clear o)
                   (Some None))
          end
        else parse_loop rest command commandArgs o    (* Unknown option *)
      else if String.eqb command "" then parse_loop rest arg commandArgs o
      else parse_loop rest command (commandArgs ++ [arg])%list o
  end.

(** the handling of a quoted command, as in [dwatcher "npm start"] *)
Definition split_command (command : string) (commandArgs : list string)
  : string * list string :=
  if JsString.includes command " " && (length commandArgs =? 0)%nat then
    match split_on " " command with
    | part :: parts => (part, parts)
    | [] => (command, commandArgs)
    end
  else (command, commandArgs).

(** [createCLI().run(argv)] *)
Definition cli_run (argv : list string) : cli_result :=
  let args := skipn 2 argv in
  if (length args =? 0)%nat || existsb (String.eqb "--help") args
     || existsb (String.eqb "-h") args
  then ShowHelp
  else
    match parse_loop args "" [] no_cli_options with
    | ExtMissing => CliThrows
    | Parsed command commandArgs o =>
        if String.eqb command "" then ExitNoCommand
        else let (command, commandArgs) := split_command command commandArgs in
             Launch command commandArgs o
    end.

End CommandLine.

(** the values given with [--ignore], in order: an option that takes a
    value is read together with the argument after it; [None] is the
    [undefined] of an [--ignore] that comes last *)
Fixpoint ignore_values (args : list string) : list (option string) :=
  match args with
  | [] => []
  | arg :: rest =>
      if String.eqb arg "--ignore" then
        match rest with
        | value :: rest' => Some value :: ignore_values rest'
        | [] => [None]
        end
      else if String.eqb arg "--debounce" || String.eqb arg "--ext"
              || String.eqb arg "--watch" then
        match rest with
        | _ :: rest' => ignore_values rest'
        | [] => []
        end
      else ignore_values rest
  end.

(** [ignorePatterns] after [values] were pushed, [current] being what the
    field held before: nothing is pushed, or the list is started from the
    default patterns if it was not yet, and the values are at its end *)
Definition pushed (current : option (list (option string)))
    (values : list (option string)) : option (list (option string)) :=
  match values with
  | [] => current
  | _ =>
      Some ((match current with
             | Some patterns => patterns
             | None => map Some (ignorePatterns DEFAULT_CONFIG)
             end) ++ values)%list
  end.

(** what the loop keeps true of the command, its arguments and the options *)
Record well_parsed (tokens : list string) (command : string)
    (commandArgs : list string) (o : CliOptions) : Prop := mkWellParsed {
  wp_command : command = "" \/ (In command tokens /\ prefix "--" command = false);
  wp_args : Forall (fun t => In t tokens /\ prefix "--" t = false) commandArgs;
  wp_debounce : c_debounceMs o <> Some 0%Z;
  wp_ignore : forall patterns,
      c_ignorePatterns o = Some patterns ->
      exists added,
        patterns = (map Some (ignorePatterns DEFAULT_CONFIG) ++ added)%list;
  wp_ext : forall exts,
      c_watchExtensions o = Some exts ->
      Forall (fun ext => prefix "." ext = true) exts
}.

(** [parseInt] on the values that the samples use *)
Definition sample_parseInt (value : option string) : option Z :=
  match value with
  | Some "0" => Some 0%Z
  | Some "500" => Some 500%Z
  | _ => None
  end.

(** the least number of characters that a match of [re] has *)
Definition min_length (re : Regex.regex) : nat :=
  length (filter (fun a => match a with
                           | Regex.One _ => true
                           | Regex.Many _ => false
                           end) re).

(** while the guard is on, a fallback is pending that is due within
    5000 ms *)
Definition guard_bounded (st : State) : Prop :=
  isRestarting st = true ->
  exists t, In t (timers st) /\ action t = ForceKill /\
            (due t <= now st + 5000)%Z.

(** the watch set after the ticks of the interval, one for each of the
    trees that the ticks find on the disk, in order *)
Definition refresh_ticks (RegExp_other : string -> string -> outcome bool)
    (join : string -> string -> string) (watchable : string -> bool)
    (watchPath : string) (config : Options) (roots : list dirent)
    (ws : WatchSet) : WatchSet :=
  fold_left
    (fun ws root =>
       refresh_tick RegExp_other join watchable watchPath config root ws)
    roots ws.

(** * Properties *)


(** ** Strings *)

Section Strings.

Lemma append_empty_r (s : string) : s ++ "" = s.
Proof. induction s as [|c s IH]; simpl; congruence. Qed.

Lemma append_assoc (a b c : string) : (a ++ b) ++ c = a ++ b ++ c.
Proof. induction a as [|x a IH]; simpl; congruence. Qed.

Lemma prefix_spec (p s : string) :
  prefix p s = true <-> exists after, s = p ++ after.
Proof.
  revert s; induction p as [|c p IH]; intros s.
  - destruct s; simpl; (split; [intros _; eexists; reflexivity|reflexivity]).
  - destruct s as [|b s]; simpl.
    + split; [discriminate|]. intros [after H]. discriminate.
    + destruct (ascii_dec c b) as [->|N].
      * rewrite IH. split; intros [after H]; exists after; congruence.
      * split; [discriminate|]. intros [after H]. congruence.
Qed.

Lemma includes_spec (s part : string) :
  JsString.includes s part = true <-> occurs part s.
Proof.
  unfold occurs. induction s as [|c s IH]; cbn [JsString.includes].
  - rewrite orb_false_r, prefix_spec. split.
    + intros [after H]. exists "", after. exact H.
    + intros (before & after & H). destruct before; [eauto|discriminate].
  - rewrite orb_true_iff, prefix_spec, IH. split.
    + intros [[after H]|(before & after & H)].
      * exists "", after. exact H.
      * exists (String c before), after. simpl. congruence.
    + intros (before & after & H). destruct before as [|b before].
      * left. exists after. exact H.
      * right. exists before, after. simpl in H. congruence.
Qed.

Lemma includes_star2_star (s : string) :
  JsString.includes s "*" = false -> JsString.includes s "**" = false.
Proof.
  intros H. destruct (JsString.includes s "**") eqn:E; auto.
  apply includes_spec in E as (before & after & E).
  assert (JsString.includes s "*" = true); [|congruence].
  apply includes_spec. exists before, ("*" ++ after). exact E.
Qed.

End Strings.

(** ** Regular expressions: the matcher and the relation *)

Section Matcher.

Lemma match_here_many (k : Regex.charclass) (re : Regex.regex) (s : string) :
  Regex.match_here (Regex.Many k :: re) s =
  Regex.match_here re s ||
  match s with
  | EmptyString => false
  | String a s' =>
      Regex.class_matches k a && Regex.match_here (Regex.Many k :: re) s'
  end.
Proof. destruct s; reflexivity. Qed.

Lemma match_here_sound (re : Regex.regex) :
  forall s, Regex.match_here re s = true ->
            exists m after, s = m ++ after /\ Matches re m.
Proof.
  induction re as [|[k|k] re IH]; intros s H.
  - exists "", s. split; [reflexivity|constructor].
  - destruct s as [|a s]; simpl in H; [discriminate|].
    apply andb_prop in H as [Hk H].
    destruct (IH s H) as (m & after & -> & M).
    exists (String a m), after. split; [reflexivity|now constructor].
  - induction s as [|a s IHs]; rewrite match_here_many in H.
    + rewrite orb_false_r in H. destruct (IH _ H) as (m & after & E & M).
      exists m, after. split; [exact E|now constructor].
    + apply orb_prop in H as [H|H].
      * destruct (IH _ H) as (m & after & E & M).
        exists m, after. split; [exact E|now constructor].
      * apply andb_prop in H as [Hk H].
        destruct (IHs H) as (m & after & -> & M).
        exists (String a m), after. split; [reflexivity|].
        now apply Matches_many_more.
Qed.

Lemma match_here_complete (re : Regex.regex) (m : string) :
  Matches re m -> forall after, Regex.match_here re (m ++ after) = true.
Proof.
  induction 1 as [|k re a s Hk M IH|k re s M IH|k re a s Hk M IH];
    intros after.
  - reflexivity.
  - simpl. now rewrite Hk, IH.
  - rewrite match_here_many, IH. reflexivity.
  - rewrite match_here_many. simpl. rewrite Hk, IH. apply orb_true_r.
Qed.

Lemma test_unfold (re : Regex.regex) (s : string) :
  Regex.test re s =
  Regex.match_here re s ||
  match s with
  | EmptyString => false
  | String _ s' => Regex.test re s'
  end.
Proof. destruct s; reflexivity. Qed.

(** [test] finds what the relation describes, anywhere in the string *)
Lemma test_spec (re : Regex.regex) (s : string) :
  Regex.test re s = true <->
  exists part, occurs part s /\ Matches re part.
Proof.
  unfold occurs. split.
  - induction s as [|c s IH]; simpl; intros H.
    + rewrite orb_false_r in H.
      destruct (match_here_sound _ _ H) as (m & after & E & M).
      exists m. split; [exists "", after; exact E|exact M].
    + apply orb_prop in H as [H|H].
      * destruct (match_here_sound _ _ H) as (m & after & E & M).
        exists m. split; [exists "", after; exact E|exact M].
      * destruct (IH H) as (m & (before & after & E) & M).
        exists m. split; [|exact M].
        exists (String c before), after. simpl. congruence.
  - intros (m & (before & after & ->) & M).
    induction before as [|c before IH]; simpl.
    + rewrite test_unfold. now rewrite (match_here_complete _ _ M).
    + rewrite IH. apply orb_true_r.
Qed.

Lemma Matches_app (r1 r2 : Regex.regex) (m1 m2 : string) :
  Matches r1 m1 -> Matches r2 m2 -> Matches (r1 ++ r2)%list (m1 ++ m2).
Proof.
  intros M1 M2.
  induction M1 as [|k re a s Hk M IH|k re s M IH|k re a s Hk M IH]; simpl.
  - exact M2.
  - now constructor.
  - now constructor.
  - now apply Matches_many_more.
Qed.

End Matcher.

(** ** From a pattern to its regular expression *)

Section Translation.

Lemma syntax_char_bracket (c : ascii) :
  Regex.syntax_char c = false -> (c =? "[")%char = false.
Proof.
  unfold Regex.syntax_char. simpl. intros H.
  repeat (apply orb_false_iff in H as [? H]). assumption.
Qed.

Lemma lex_class (c : ascii) (rest : string) :
  (c =? "[")%char = false -> (c =? "*")%char = false ->
  Regex.lex (String c rest) =
  if (c =? ".")%char
  then option_map (cons (Regex.TClass Regex.AnyChar)) (Regex.lex rest)
  else if Regex.syntax_char c then None
       else option_map (cons (Regex.TClass (Regex.Lit c))) (Regex.lex rest).
Proof. intros A B. cbn [Regex.lex]. now rewrite A, B. Qed.

Lemma lex_star (rest : string) :
  Regex.lex (String "*" rest) =
  option_map (cons Regex.TStar) (Regex.lex rest).
Proof. reflexivity. Qed.

Lemma group_class (k : Regex.charclass) (ts : list Regex.token) :
  starts_with_class ts ->
  Regex.group (Regex.TClass k :: ts) =
  option_map (cons (Regex.One k)) (Regex.group ts).
Proof. destruct ts as [|[k'|] ts]; simpl; intros H; [auto|auto|contradiction]. Qed.

(** the source made for a pattern with single stars compiles to
    [glob_regex], whatever source of the fragment follows *)
Lemma lex_glob (pattern : string) :
  plain pattern = true ->
  forall rest ts re,
    Regex.lex rest = Some ts -> Regex.group ts = Some re ->
    starts_with_class ts ->
    exists ts',
      Regex.lex (JsString.replace_all_star ".*" pattern ++ rest) = Some ts' /\
      Regex.group ts' = Some (glob_regex pattern ++ re)%list /\
      starts_with_class ts'.
Proof.
  unfold plain. induction pattern as [|c pattern IH];
    intros Hp rest ts re Hl Hg Hs.
  - exists ts. auto.
  - simpl in Hp. apply andb_prop in Hp as [Hc Hp]. apply negb_true_iff in Hc.
    destruct (IH Hp rest ts re Hl Hg Hs) as (ts' & El & Eg & Es).
    cbn [JsString.replace_all_star glob_regex].
    destruct (c =? "*")%char eqn:Estar.
    + exists (Regex.TClass Regex.AnyChar :: Regex.TStar :: ts').
      change ((".*" ++ JsString.replace_all_star ".*" pattern) ++ rest)
        with (String "." (String "*"
                (JsString.replace_all_star ".*" pattern ++ rest))).
      rewrite lex_class by reflexivity. rewrite lex_star, El.
      split; [reflexivity|]. split; [|exact I].
      simpl. now rewrite Eg.
    + change (String c (JsString.replace_all_star ".*" pattern) ++ rest)
        with (String c (JsString.replace_all_star ".*" pattern ++ rest)).
      rewrite lex_class by auto using syntax_char_bracket.
      rewrite Hc, El. destruct (c =? ".")%char.
      * exists (Regex.TClass Regex.AnyChar :: ts').
        split; [reflexivity|]. split; [|exact I].
        rewrite group_class by exact Es. now rewrite Eg.
      * exists (Regex.TClass (Regex.Lit c) :: ts').
        split; [reflexivity|]. split; [|exact I].
        rewrite group_class by exact Es. now rewrite Eg.
Qed.

Lemma compile_glob (pattern : string) :
  plain pattern = true ->
  Regex.compile (JsString.replace_all_star ".*" pattern) =
  Some (glob_regex pattern).
Proof.
  intros Hp.
  destruct (lex_glob pattern Hp "" [] [] eq_refl eq_refl I)
    as (ts & El & Eg & _).
  rewrite append_empty_r in El. unfold Regex.compile.
  now rewrite El, Eg, app_nil_r.
Qed.

Lemma replace_all_star_starless (by_ dir rest : string) :
  starless dir = true ->
  JsString.replace_all_star by_ (dir ++ rest) =
  dir ++ JsString.replace_all_star by_ rest.
Proof.
  unfold starless. induction dir as [|c dir IH]; simpl; intros H; auto.
  apply andb_prop in H as [Hc H]. apply negb_true_iff in Hc.
  now rewrite Hc, IH.
Qed.

Lemma replace_all_star2_starless (by_ dir : string) :
  starless dir = true ->
  JsString.replace_all_star2 by_ (dir ++ "**") = dir ++ by_.
Proof.
  unfold starless. induction dir as [|c dir IH]; intros H.
  - simpl. now rewrite append_empty_r.
  - simpl in H. apply andb_prop in H as [Hc H]. apply negb_true_iff in Hc.
    specialize (IH H). destruct dir as [|c' dir].
    + simpl. rewrite Hc. simpl. now rewrite append_empty_r.
    + change (JsString.replace_all_star2 by_
                ((String c (String c' dir)) ++ "**"))
        with (if (c =? "*")%char && (c' =? "*")%char
              then by_ ++ JsString.replace_all_star2 by_ (dir ++ "**")
              else String c (JsString.replace_all_star2 by_
                               (String c' dir ++ "**"))).
      rewrite Hc. simpl andb. cbv iota. now rewrite IH.
Qed.

(** the source made for [dir/**]-like patterns *)
Lemma compile_trailing_star2 (dir : string) :
  plain dir = true -> starless dir = true ->
  Regex.compile
    (JsString.replace_all_star "[^/]*"
       (JsString.replace_all_star2 ".*" (dir ++ "**"))) =
  Some (glob_regex dir ++
        [Regex.One Regex.AnyChar; Regex.Many Regex.NotSlash])%list.
Proof.
  intros Hp Hs.
  rewrite replace_all_star2_starless by exact Hs.
  rewrite replace_all_star_starless by exact Hs.
  destruct (lex_glob dir Hp ".[^/]*"
              [Regex.TClass Regex.AnyChar; Regex.TClass Regex.NotSlash;
               Regex.TStar]
              [Regex.One Regex.AnyChar; Regex.Many Regex.NotSlash]
              eq_refl eq_refl I) as (ts & El & Eg & _).
  rewrite <- (append_empty_r dir) in El at 1.
  rewrite (replace_all_star_starless ".*" dir "" Hs) in El.
  simpl in El. rewrite append_empty_r in El.
  unfold Regex.compile.
  change (JsString.replace_all_star "[^/]*" ".*") with ".[^/]*".
  now rewrite El, Eg.
Qed.

Lemma Matches_glob_self (dir : string) :
  starless dir = true -> Matches (glob_regex dir) dir.
Proof.
  unfold starless. induction dir as [|c dir IH]; simpl; intros H.
  - constructor.
  - apply andb_prop in H as [Hc H]. apply negb_true_iff in Hc. rewrite Hc.
    destruct (c =? ".")%char eqn:Ed.
    + apply Ascii.eqb_eq in Ed. subst c. constructor; [reflexivity|auto].
    + constructor; [simpl; apply Ascii.eqb_refl|auto].
Qed.

End Translation.

(** ** PathFilter *)

Section PathFilterRules.

Variable RegExp_other : string -> string -> outcome bool.

Lemma pattern_test_total (path pattern : string) :
  in_fragment pattern = true ->
  exists b, pattern_test RegExp_other path pattern = Returned b.
Proof.
  unfold in_fragment, regexp_source, pattern_test, RegExp_test.
  destruct (JsString.includes pattern "**").
  - destruct (Regex.compile _); [eauto|discriminate].
  - destruct (JsString.includes pattern "*"); [|eauto].
    destruct (Regex.compile _); [eauto|discriminate].
Qed.

Lemma some_spec {A : Type} (f : A -> outcome bool) (l : list A) :
  (forall x, In x l -> exists b, f x = Returned b) ->
  (exists b, some f l = Returned b) /\
  (some f l = Returned true <-> exists x, In x l /\ f x = Returned true).
Proof.
  induction l as [|x l IH]; simpl; intros H.
  - split; [eauto|]. split; [discriminate|]. intros (x & [] & _).
  - destruct (H x (or_introl eq_refl)) as [b E].
    destruct IH as [IH1 IH2]; [auto|]. rewrite E. destruct b.
    + split; [eauto|]. split; [eauto|reflexivity].
    + split; [exact IH1|]. rewrite IH2. split.
      * intros (y & Hy & Ey). eauto.
      * intros (y & [<-|Hy] & Ey); [congruence|eauto].
Qed.

Lemma shouldIgnore_total (path : string) (P : list string) :
  forallb in_fragment P = true ->
  forall e, shouldIgnore RegExp_other path P <> Threw e.
Proof.
  intros H e. unfold shouldIgnore.
  destruct (some_spec (pattern_test RegExp_other path) P) as [[b E] _].
  - intros x Hx. apply pattern_test_total.
    rewrite forallb_forall in H. auto.
  - rewrite E. discriminate.
Qed.

(** C5, as the code has it.  [shouldIgnore] is true when one of the
    patterns matches.  A pattern without a star matches the paths that
    contain it.  A pattern with single stars matches the paths of which
    some part is the pattern with each star replaced by a run of
    characters other than line terminators (path separators are among
    them) and each dot by one such character.  A pattern made of a
    star-free prefix and a closing pair of stars matches every path that
    has the prefix followed by one more character other than a line
    terminator, whatever follows and however deep.  (The patterns are
    taken without syntax characters of regular expressions other than the
    dot and the star.) *)
Theorem shouldIgnore_rules (path : string) (P : list string) :
  (forallb in_fragment P = true ->
   (exists b, shouldIgnore RegExp_other path P = Returned b) /\
   (shouldIgnore RegExp_other path P = Returned true <->
    exists pattern, In pattern P /\
                    pattern_test RegExp_other path pattern = Returned true))
  /\
  (forall pattern,
      JsString.includes pattern "*" = false ->
      pattern_test RegExp_other path pattern =
      Returned (JsString.includes path pattern) /\
      (JsString.includes path pattern = true <-> occurs pattern path))
  /\
  (forall pattern,
      plain pattern = true ->
      JsString.includes pattern "**" = false ->
      JsString.includes pattern "*" = true ->
      pattern_test RegExp_other path pattern =
      Returned (Regex.test (glob_regex pattern) path) /\
      (Regex.test (glob_regex pattern) path = true <->
       exists part, occurs part path /\ Matches (glob_regex pattern) part))
  /\
  (forall dir before c below,
      plain dir = true -> starless dir = true ->
      Regex.line_terminator c = false ->
      path = before ++ dir ++ String c below ->
      pattern_test RegExp_other path (dir ++ "**") = Returned true).
Proof.
  split; [|split; [|split]].
  - intros H. apply some_spec. intros x Hx. apply pattern_test_total.
    rewrite forallb_forall in H. auto.
  - intros pattern H. split; [|apply includes_spec].
    unfold pattern_test. now rewrite (includes_star2_star _ H), H.
  - intros pattern Hp H2 H1. split; [|apply test_spec].
    unfold pattern_test, RegExp_test. now rewrite H2, H1, compile_glob.
  - intros dir before c below Hp Hs Hc ->.
    unfold pattern_test, RegExp_test.
    assert (E : JsString.includes (dir ++ "**") "**" = true).
    { apply includes_spec. exists dir, "". reflexivity. }
    rewrite E, compile_trailing_star2 by assumption. f_equal.
    apply test_spec. exists (dir ++ String c ""). split.
    + exists before, below. now rewrite append_assoc.
    + apply Matches_app; [now apply Matches_glob_self|].
      constructor; [simpl; now rewrite Hc|]. repeat constructor.
Qed.

End PathFilterRules.

(** ** The timer queue *)

Section TimerQueue.

Lemma earliest_In (ts : list timer) (t : timer) :
  earliest ts = Some t -> In t ts.
Proof.
  revert t; induction ts as [|u ts IH]; simpl; intros t H; [discriminate|].
  destruct (earliest ts) as [v|].
  - destruct (due v <? due u)%Z; inversion H; subst; auto.
  - inversion H; auto.
Qed.

Lemma earliest_min (ts : list timer) (t : timer) :
  earliest ts = Some t -> forall u, In u ts -> (due t <= due u)%Z.
Proof.
  revert t; induction ts as [|w ts IH]; simpl; intros t H u Hu; [contradiction|].
  destruct (earliest ts) as [v|] eqn:E.
  - specialize (IH v eq_refl).
    destruct (due v <? due w)%Z eqn:L; inversion H; subst; clear H.
    + apply Z.ltb_lt in L. destruct Hu as [<-|Hu]; [lia|auto].
    + apply Z.ltb_ge in L. destruct Hu as [<-|Hu]; [lia|].
      specialize (IH u Hu). lia.
  - inversion H; subst. destruct Hu as [<-|Hu]; [lia|].
    destruct ts; [contradiction|]. simpl in E.
    destruct (earliest ts); [destruct (_ <? _)%Z|]; discriminate.
Qed.

Lemma earliest_none (ts : list timer) : earliest ts = None -> ts = [].
Proof.
  destruct ts as [|u ts]; simpl; auto.
  destruct (earliest ts); [destruct (_ <? _)%Z|]; discriminate.
Qed.

Lemma next_due_In (target : Z) (st : State) (t : timer) :
  next_due target st = Some t -> In t (timers st) /\ (due t <= target)%Z.
Proof.
  unfold next_due. destruct (earliest (timers st)) as [u|] eqn:E; [|discriminate].
  destruct (due u <=? target)%Z eqn:L; [|discriminate].
  intros H; inversion H; subst. split; [eapply earliest_In; eauto|].
  now apply Z.leb_le.
Qed.

Lemma next_due_min (target : Z) (st : State) (t : timer) :
  next_due target st = Some t ->
  forall u, In u (timers st) -> (due t <= due u)%Z.
Proof.
  unfold next_due. destruct (earliest (timers st)) as [v|] eqn:E; [|discriminate].
  destruct (due v <=? target)%Z; [|discriminate].
  intros H; inversion H; subst. now apply earliest_min.
Qed.

Lemma next_due_none (target : Z) (st : State) :
  next_due target st = None ->
  forall u, In u (timers st) -> (target < due u)%Z.
Proof.
  unfold next_due. destruct (earliest (timers st)) as [v|] eqn:E.
  - destruct (due v <=? target)%Z eqn:L; [discriminate|].
    intros _ u Hu. apply Z.leb_gt in L.
    pose proof (earliest_min _ _ E u Hu). lia.
  - intros _ u Hu. apply earliest_none in E. rewrite E in Hu. contradiction.
Qed.

Lemma next_due_some (target : Z) (st : State) (u : timer) :
  In u (timers st) -> (due u <= target)%Z ->
  exists t, next_due target st = Some t.
Proof.
  intros Hu Hle. destruct (next_due target st) as [t|] eqn:E; [eauto|].
  pose proof (next_due_none _ _ E u Hu). lia.
Qed.

End TimerQueue.

(** ** Steps of the supervisor and the queue *)

Section Frames.

Lemma startTargetApp_eq (command : string) (args : list string)
    (options : Options) (st : State) :
  startTargetApp command args options st =
  set_childProcess (Some (length (children (killTargetApp st))))
    (snd (spawn (killTargetApp st))).
Proof.
  unfold startTargetApp, killTargetApp.
  destruct (childProcess st); reflexivity.
Qed.

Lemma frame_refl (st : State) : frame st st.
Proof. constructor; auto. Qed.

Lemma frame_kill (pid : nat) (sig : signal) (st : State) :
  frame st (kill pid sig st).
Proof.
  unfold kill. destruct (running (child pid st)); [|apply frame_refl].
  constructor; simpl; auto.
  unfold restarts; simpl. rewrite flat_map_app; simpl. now rewrite app_nil_r.
Qed.

Lemma frame_killTargetApp (st : State) : frame st (killTargetApp st).
Proof.
  unfold killTargetApp. destruct (childProcess st) as [pid|]; [|apply frame_refl].
  unfold kill; simpl. destruct (running _); constructor; simpl; auto.
  unfold restarts; simpl. rewrite flat_map_app; simpl. now rewrite app_nil_r.
Qed.

Lemma frame_forceKill (st : State) : frame st (forceKill st).
Proof.
  unfold forceKill. destruct (childProcess st) as [pid|]; [|constructor; simpl; auto].
  destruct (negb (killed (child pid st))); [|constructor; simpl; auto].
  destruct (frame_kill pid SIGKILL st) as [A B C D].
  constructor; simpl; auto.
Qed.

Lemma frame_startTargetApp (command : string) (args : list string)
    (options : Options) (st : State) :
  frame st (startTargetApp command args options st).
Proof.
  rewrite startTargetApp_eq.
  destruct (frame_killTargetApp st) as [A B C D].
  constructor; simpl; auto.
  unfold restarts in *; simpl. rewrite flat_map_app; simpl.
  now rewrite app_nil_r.
Qed.

Lemma wf_frame (st st' : State) : wf st -> frame st st' -> wf st'.
Proof.
  intros [W1 W2 W3 W4] [A B C D].
  destruct D as [[Dt Dn]|[Dt Dn]]; constructor; rewrite ?Dt, ?Dn, ?A, ?B.
  - auto.
  - auto.
  - auto.
  - auto.
  - intros t Ht Hr. apply in_app_or in Ht as [Ht|[<-|[]]]; [auto|discriminate].
  - rewrite map_app; simpl. apply NoDup_app; auto.
    + constructor; [intros []|constructor].
    + intros h Hh [<-|[]]. apply in_map_iff in Hh as (t & E & Ht).
      specialize (W3 t Ht). lia.
  - intros t Ht. apply in_app_or in Ht as [Ht|[<-|[]]]; simpl;
      [specialize (W3 t Ht)|]; lia.
  - intros t Ht. apply in_app_or in Ht as [Ht|[<-|[]]]; simpl; [auto|lia].
Qed.

Lemma budget_frame (st st' : State) :
  frame st st' -> (budget st' <= budget st + 1)%nat.
Proof.
  intros [_ _ _ [[Dt _]|[Dt _]]]; unfold budget; rewrite Dt; [lia|].
  rewrite map_app, list_sum_app; simpl. lia.
Qed.

(** dropping timers from the queue keeps the handles distinct *)
Lemma handles_filter (keep : timer -> bool) (ts : list timer) :
  NoDup (map handle ts) -> NoDup (map handle (filter keep ts)).
Proof.
  induction ts as [|t ts IH]; simpl; intros H; [constructor|].
  inversion H as [|? ? Ht Hts]; subst.
  destruct (keep t); simpl; auto. constructor; auto.
  intros Hin. apply Ht. apply in_map_iff in Hin as (u & E & Hu).
  apply filter_In in Hu as [Hu _]. apply in_map_iff; eauto.
Qed.

Lemma wf_clearTimeout (h : nat) (st : State) :
  wf st -> wf (clearTimeout h st).
Proof.
  intros [W1 W2 W3 W4]. constructor; simpl.
  - intros t Ht. apply filter_In in Ht as [Ht _]. auto.
  - now apply handles_filter.
  - intros t Ht. apply filter_In in Ht as [Ht _]. auto.
  - intros t Ht. apply filter_In in Ht as [Ht _]. auto.
Qed.

(** the timer about to fire leaves the queue and the clock moves to it *)
Lemma wf_pop (target : Z) (st : State) (t : timer) :
  wf st -> next_due target st = Some t ->
  wf (set_now (Z.max (now st) (due t)) (clearTimeout (handle t) st)).
Proof.
  intros W E. pose proof (wf_clearTimeout (handle t) st W) as [W1 W2 W3 W4].
  constructor; simpl in *; auto.
  intros u Hu. specialize (W4 u Hu). apply filter_In in Hu as [Hu _].
  pose proof (next_due_min _ _ _ E u Hu). lia.
Qed.

Lemma wf_emit (e : effect) (st : State) : wf st -> wf (emit e st).
Proof. intros [W1 W2 W3 W4]. constructor; simpl; auto. Qed.

Lemma wf_fire (target : Z) (st : State) (t : timer) :
  wf st -> next_due target st = Some t -> wf (fire t st).
Proof.
  intros W E. pose proof (wf_pop _ _ _ W E) as W'.
  unfold fire, run_callback. destruct (action t) as [|c a o].
  - eapply wf_frame; [exact W'|apply frame_forceKill].
  - unfold restart. eapply wf_frame; [|apply frame_startTargetApp].
    now apply wf_emit.
Qed.

Lemma wf_run_timers (fuel : nat) (target : Z) (st : State) :
  wf st -> wf (run_timers fuel target st).
Proof.
  revert st; induction fuel as [|fuel IH]; simpl; intros st W; auto.
  destruct (next_due target st) as [t|] eqn:E; auto.
  apply IH. eapply wf_fire; eauto.
Qed.

Lemma weight_filter (t : timer) (ts : list timer) :
  In t ts ->
  (list_sum (map weight
     (filter (fun u => negb (handle u =? handle t)%nat) ts)) + weight t
   <= list_sum (map weight ts))%nat.
Proof.
  induction ts as [|u ts IH]; simpl; intros H; [contradiction|].
  destruct H as [->|H].
  - rewrite Nat.eqb_refl; simpl.
    clear IH. induction ts as [|v ts IH]; simpl; [lia|].
    destruct (negb _); simpl; lia.
  - specialize (IH H). destruct (negb _); simpl; lia.
Qed.

Lemma timers_forceKill (st : State) : timers (forceKill st) = timers st.
Proof.
  unfold forceKill. destruct (childProcess st) as [pid|]; simpl; auto.
  destruct (negb _); simpl; auto. unfold kill.
  destruct (running _); reflexivity.
Qed.

Lemma budget_pop (x : Z) (st : State) (t : timer) :
  In t (timers st) ->
  (budget (set_now x (clearTimeout (handle t) st)) + weight t
   <= budget st)%nat.
Proof. intros H. unfold budget; simpl. now apply weight_filter. Qed.

Lemma budget_fire (target : Z) (st : State) (t : timer) :
  next_due target st = Some t -> (budget (fire t st) < budget st)%nat.
Proof.
  intros E. apply next_due_In in E as [Hin _].
  pose proof (budget_pop (Z.max (now st) (due t)) st t Hin) as Hw.
  unfold fire, run_callback. unfold weight in Hw.
  destruct (action t) as [|c a o].
  - unfold budget at 1. rewrite timers_forceKill. fold (budget
      (set_now (Z.max (now st) (due t)) (clearTimeout (handle t) st))). lia.
  - unfold restart.
    match goal with |- (budget (startTargetApp _ _ _ ?s) < _)%nat =>
      pose proof (budget_frame _ _ (frame_startTargetApp c a o s)) as Hb;
      assert (budget s = budget (set_now (Z.max (now st) (due t))
                                   (clearTimeout (handle t) st)))
        by reflexivity
    end.
    lia.
Qed.

(** the fuel of [advance] is enough: nothing due is left pending *)
Lemma run_timers_done (fuel : nat) (target : Z) (st : State) :
  (budget st <= fuel)%nat ->
  next_due target (run_timers fuel target st) = None.
Proof.
  revert st; induction fuel as [|fuel IH]; simpl; intros st H.
  - unfold next_due. unfold budget in H.
    destruct (timers st) as [|t ts]; simpl; auto.
    simpl in H. unfold weight in H at 1. destruct (action t); lia.
  - destruct (next_due target st) as [t|] eqn:E; auto.
    apply IH. pose proof (budget_fire _ _ _ E). lia.
Qed.

Lemma wf_advance (target : Z) (st : State) : wf st -> wf (advance target st).
Proof.
  intros W. unfold advance.
  pose proof (wf_run_timers (budget st) target st W) as [W1 W2 W3 W4].
  pose proof (run_timers_done (budget st) target st (le_n _)) as Hd.
  constructor; simpl; auto.
  intros u Hu. pose proof (next_due_none _ _ Hd u Hu). specialize (W4 u Hu). lia.
Qed.

Lemma now_advance (target : Z) (st : State) :
  (target <= now (advance target st))%Z.
Proof. unfold advance; simpl. lia. Qed.

Lemma now_run_callback (f : callback) (st : State) :
  now (run_callback f st) = now st.
Proof.
  unfold run_callback. destruct f as [|c a o].
  - now rewrite (frame_now _ _ (frame_forceKill _)).
  - unfold restart. now rewrite (frame_now _ _ (frame_startTargetApp c a o _)).
Qed.




Lemma advance_pending (target : Z) (st : State) (u : timer) :
  In u (timers (advance target st)) -> (target < due u)%Z.
Proof.
  unfold advance; simpl. apply next_due_none.
  apply run_timers_done. apply le_n.
Qed.

Lemma delay_of_pos (ms : Z) : (1 <= delay_of ms)%Z.
Proof.
  unfold delay_of. destruct (1 <=? ms)%Z eqn:A; simpl; [|lia].
  destruct (ms <=? 2147483647)%Z; [|lia]. now apply Z.leb_le.
Qed.

(** a change event keeps the queue well formed: the debounce timer that was
    pending is cleared before the new one is armed *)
Lemma wf_handleFileChange (filename eventType : string) (options : Options)
    (command : string) (args : list string) (st : State) :
  wf st -> wf (handleFileChange filename eventType options command args st).
Proof.
  intros W. unfold handleFileChange.
  destruct (isRestarting st); [exact W|].
  assert (K : exists st0,
            (match debounceTimer st with
             | Some h => clearTimeout h st
             | None => st
             end) = st0 /\ wf st0 /\
            (forall u, In u (timers st0) -> is_restart (action u) = false)).
  { destruct (debounceTimer st) as [h|] eqn:Ed.
    - exists (clearTimeout h st). split; [reflexivity|].
      split; [now apply wf_clearTimeout|]. intros u Hu. simpl in Hu.
      apply filter_In in Hu as [Hu Hh].
      destruct (is_restart (action u)) eqn:Ru; auto.
      destruct W as [W1 _ _ _]. specialize (W1 u Hu Ru).
      rewrite Ed in W1. inversion W1; subst.
      rewrite Nat.eqb_refl in Hh. discriminate.
    - exists st. split; [reflexivity|]. split; [exact W|]. intros u Hu.
      destruct (is_restart (action u)) eqn:Ru; auto.
      destruct W as [W1 _ _ _]. specialize (W1 u Hu Ru). congruence. }
  destruct K as (st0 & -> & [W1 W2 W3 W4] & Q0).
  pose proof (delay_of_pos (debounceMs options)) as Hd.
  unfold setTimeout. constructor; simpl.
  - intros u Hu Ru. apply in_app_or in Hu as [Hu|[<-|[]]]; [|reflexivity].
    rewrite (Q0 u Hu) in Ru. discriminate.
  - rewrite map_app; simpl. apply NoDup_app; auto.
    + constructor; [intros []|constructor].
    + intros h Hh [<-|[]]. apply in_map_iff in Hh as (u & E & Hu).
      specialize (W3 u Hu). lia.
  - intros u Hu. apply in_app_or in Hu as [Hu|[<-|[]]]; simpl;
      [specialize (W3 u Hu)|]; lia.
  - intros u Hu. apply in_app_or in Hu as [Hu|[<-|[]]]; simpl;
      [specialize (W4 u Hu)|]; lia.
Qed.

Lemma wf_dispatch (command : string) (args : list string) (options : Options)
    (ev : event) (st : State) :
  wf st -> wf (dispatch command args options ev st).
Proof.
  intros W. destruct ev as [f k|pid code sig|pid]; simpl.
  - now apply wf_handleFileChange.
  - destruct (running (child pid st)); [|exact W].
    destruct W as [W1 W2 W3 W4]. constructor; simpl; auto.
  - destruct (running (child pid st)); [|exact W].
    destruct W as [W1 W2 W3 W4]. constructor; simpl; auto.
Qed.

(** PendingRestart holds all along a run *)
Lemma wf_run (command : string) (args : list string) (options : Options)
    (schedule : list (Z * event)) :
  forall st, wf st -> wf (run command args options schedule st).
Proof.
  induction schedule as [|[t ev] schedule IH]; simpl; intros st W; auto.
  apply IH. apply wf_dispatch. now apply wf_advance.
Qed.

End Frames.

(** ** DebounceController *)

Section Debounce.

Variable command : string.
Variable args : list string.
Variable options : Options.

Let d : Z := debounceMs options.

Hypothesis d_valid : (1 <= d <= 2147483647)%Z.


(** two pending timers with one handle are one timer *)
Lemma same_handle (ts : list timer) (t u : timer) :
  NoDup (map handle ts) -> In t ts -> In u ts -> handle t = handle u -> t = u.
Proof.
  induction ts as [|v ts IH]; simpl; intros H Ht Hu E; [contradiction|].
  inversion H as [|? ? Hv Hts]; subst.
  destruct Ht as [->|Ht], Hu as [->|Hu]; auto.
  - exfalso. apply Hv. rewrite E. now apply in_map.
  - exfalso. apply Hv. rewrite <- E. now apply in_map.
Qed.



Lemma isRestarting_forceKill (st : State) : isRestarting (forceKill st) = false.
Proof. reflexivity. Qed.
























End Debounce.

Lemma wf_initial : wf initial.
Proof. constructor; simpl; try contradiction. constructor. Qed.

Lemma wf_started : wf started.
Proof. eapply wf_frame; [apply wf_initial|apply frame_startTargetApp]. Qed.



(** ** ProcessSupervisor *)

Section Supervisor.

Lemma length_update {A : Type} (n : nat) (x : A) (l : list A) :
  length (update n x l) = length l.
Proof.
  revert n; induction l as [|y l IH]; intros [|n]; simpl; auto.
Qed.

Lemma nth_update {A : Type} (n : nat) (x d : A) (l : list A) :
  (n < length l)%nat -> nth n (update n x l) d = x.
Proof.
  revert n; induction l as [|y l IH]; intros [|n]; simpl; intros H;
    try lia; auto. apply IH. lia.
Qed.

Lemma filter_running_update (n : nat) (c : ChildProcess)
    (l : list ChildProcess) :
  running c = running (nth n l (mkChild false false)) ->
  length (filter running (update n c l)) = length (filter running l).
Proof.
  revert n; induction l as [|y l IH]; intros [|n]; simpl; intros H; auto.
  - rewrite H. destruct (running y); reflexivity.
  - destruct (running y); simpl; auto.
Qed.

(** C10.  Without a child, [killTargetApp] does nothing: the state is left
    as it is, so the guard keeps its value, no signal is sent and no
    fallback is armed. *)
Theorem killTargetApp_without_child (st : State) :
  childProcess st = None ->
  killTargetApp st = st /\
  isRestarting (killTargetApp st) = isRestarting st /\
  trace (killTargetApp st) = trace st /\
  timers (killTargetApp st) = timers st.
Proof.
  intros H. unfold killTargetApp. rewrite H. auto.
Qed.

(** What [killTargetApp] does to a running child. *)
Lemma killTargetApp_running (st : State) (pid : nat) :
  childProcess st = Some pid -> running (child pid st) = true ->
  killTargetApp st =
  mkState (Some pid) (debounceTimer st) true
    (update pid (mkChild true true) (children st))
    (timers st ++ [mkTimer (next_handle st) (now st + 5000) ForceKill])
    (S (next_handle st)) (now st)
    (trace st ++ [Signalled (now st) pid SIGTERM]).
Proof.
  intros Hc Hr. unfold killTargetApp. rewrite Hc.
  unfold kill. simpl.
  replace (child pid (set_isRestarting true st)) with (child pid st)
    by reflexivity.
  rewrite Hr. unfold setTimeout, emit, set_children, set_isRestarting.
  simpl. rewrite Hc. reflexivity.
Qed.

(** C1, as the code has it.  Called while a child is held and running,
    [startTargetApp] starts the stop sequence on it (guard set, SIGTERM
    sent, the 5000 ms fallback armed) and only then spawns the new child;
    it does not wait for the old one to end, so that right after the call
    both are running.  Called without a child, it spawns and sends
    nothing. *)
Theorem startTargetApp_stops_then_spawns (command : string)
    (args : list string) (options : Options) (st : State) :
  let st' := startTargetApp command args options st in
  let new := length (children st) in
  (forall pid,
      childProcess st = Some pid -> running (child pid st) = true ->
      (pid < length (children st))%nat ->
      trace st' = (trace st ++ [Signalled (now st) pid SIGTERM;
                                Spawned (now st) new])%list /\
      isRestarting st' = true /\
      In (mkTimer (next_handle st) (now st + 5000) ForceKill) (timers st') /\
      childProcess st' = Some new /\
      running (child pid st') = true /\ running (child new st') = true /\
      running_children st' = S (running_children st)) /\
  (childProcess st = None ->
      trace st' = (trace st ++ [Spawned (now st) new])%list /\
      isRestarting st' = isRestarting st /\ timers st' = timers st /\
      childProcess st' = Some new).
Proof.
  intros st' new. subst st'. rewrite startTargetApp_eq. split.
  - intros pid Hc Hr Hlt. rewrite (killTargetApp_running st pid Hc Hr).
    unfold spawn, child, running_children; simpl.
    rewrite length_update. fold new.
    split; [now rewrite <- app_assoc|]. split; [reflexivity|].
    split; [apply in_or_app; simpl; auto|]. split; [reflexivity|].
    split; [|split].
    + rewrite app_nth1 by (rewrite length_update; exact Hlt).
      now rewrite nth_update.
    + rewrite app_nth2 by (rewrite length_update; unfold new; lia).
      rewrite length_update. unfold new. now rewrite Nat.sub_diag.
    + rewrite filter_app, length_app; simpl.
      rewrite filter_running_update; [lia|]. symmetry. exact Hr.
  - intros Hc. unfold killTargetApp. rewrite Hc. simpl. auto.
Qed.

Lemma run_timers_idle (fuel : nat) (target : Z) (st : State) :
  (forall t, In t (timers st) -> (target < due t)%Z) ->
  run_timers fuel target st = st.
Proof.
  intros H. destruct fuel as [|fuel]; simpl; auto.
  destruct (next_due target st) as [t|] eqn:E; auto.
  apply next_due_In in E as [Hin Hle]. specialize (H t Hin). lia.
Qed.

Lemma advance_idle (target : Z) (st : State) :
  (forall t, In t (timers st) -> (target < due t)%Z) ->
  advance target st = set_now (Z.max (now st) target) st.
Proof.
  intros H. unfold advance. now rewrite run_timers_idle.
Qed.

Lemma filter_keeps {A : Type} (p : A -> bool) (l : list A) :
  (forall x, In x l -> p x = true) -> filter p l = l.
Proof.
  induction l as [|x l IH]; simpl; intros H; auto.
  rewrite (H x) by auto. f_equal. apply IH. auto.
Qed.

(** the only timer due by [target] is the last one armed: it fires, and
    nothing else does *)
Lemma advance_fires_last (target : Z) (st : State) (t : timer) :
  (forall u, In u (timers st) -> (target < due u)%Z /\ handle u <> handle t) ->
  (due t <= target)%Z -> (now st <= due t)%Z ->
  (forall s, timers (run_callback (action t) s) = timers s) ->
  forall st0, timers st0 = (timers st ++ [t])%list ->
              now st0 = now st ->
  advance target st0 =
  set_now target
    (run_callback (action t)
       (set_now (due t) (set_timers (timers st) st0))).
Proof.
  intros Hold Hle Hn Hcb st0 Ht Hn0. unfold advance.
  assert (B : exists n, budget st0 = S n).
  { unfold budget. rewrite Ht, map_app, list_sum_app. simpl.
    unfold weight. destruct (action t); eexists; rewrite Nat.add_comm;
      simpl; reflexivity. }
  destruct B as [n ->]. simpl.
  assert (In t (timers st0)) as Hin by (rewrite Ht; apply in_or_app; simpl; auto).
  destruct (next_due_some target st0 t Hin Hle) as [u E]. rewrite E.
  pose proof (next_due_In _ _ _ E) as [Hu Hule].
  assert (u = t).
  { rewrite Ht in Hu. apply in_app_or in Hu as [Hu|[<-|[]]]; auto.
    destruct (Hold u Hu). lia. }
  subst u.
  assert (F : fire t st0 =
              run_callback (action t)
                (set_now (due t) (set_timers (timers st) st0))).
  { unfold fire. f_equal. unfold clearTimeout, set_now, set_timers. simpl.
    rewrite Ht, filter_app. simpl. rewrite Nat.eqb_refl. simpl.
    rewrite app_nil_r. rewrite filter_keeps.
    - rewrite Hn0. now rewrite Z.max_r by lia.
    - intros x Hx. destruct (Hold x Hx) as [_ Hh].
      apply negb_true_iff. now apply Nat.eqb_neq. }
  rewrite F. rewrite run_timers_idle.
  - f_equal. rewrite now_run_callback. simpl. lia.
  - intros x Hx. rewrite Hcb in Hx. simpl in Hx. now apply Hold.
Qed.

Lemma forced_app (st : State) (tr : list effect) (es : list effect) :
  trace st = tr ->
  filter (fun e => match e with
                   | Signalled _ _ SIGKILL => true
                   | _ => false
                   end) (tr ++ es) =
  (forced st ++
   filter (fun e => match e with
                    | Signalled _ _ SIGKILL => true
                    | _ => false
                    end) es)%list.
Proof. intros <-. unfold forced. now rewrite filter_app. Qed.

(** the fallback fires with no child held: the guard goes off, nothing is
    sent *)
Lemma fallback_without_child (st0 : State) (ts : list timer) (h : nat) (t : Z) :
  timers st0 = (ts ++ [mkTimer h t ForceKill])%list ->
  childProcess st0 = None -> (now st0 <= t)%Z ->
  (forall u, In u ts -> (t < due u)%Z /\ handle u <> h) ->
  advance t st0 =
  mkState None (debounceTimer st0) false (children st0) ts (next_handle st0)
    t (trace st0).
Proof.
  intros Ht Hc Hn Hold.
  rewrite (advance_fires_last t (set_timers ts st0) (mkTimer h t ForceKill));
    simpl; auto; try lia.
  - unfold forceKill. simpl. rewrite Hc.
    unfold set_now, set_isRestarting, set_timers. simpl. now rewrite Hc.
  - intros s. apply timers_forceKill.
Qed.

Lemma forced_sigterm (st : State) (more : list effect) :
  (forall e, In e more -> match e with
                          | Signalled _ _ SIGKILL => False
                          | _ => True
                          end) ->
  filter (fun e => match e with
                   | Signalled _ _ SIGKILL => true
                   | _ => false
                   end) (trace st ++ more) = forced st.
Proof.
  intros H. rewrite (forced_app st _ _ eq_refl).
  rewrite <- (app_nil_r (forced st)) at 2. f_equal.
  induction more as [|e more IH]; simpl; auto.
  pose proof (H e (or_introl eq_refl)) as He.
  destruct e as [| ? ? [|] |]; try contradiction; apply IH; intros; apply H;
    now right.
Qed.

(** C2, as the code has it.  A running child is asked to stop, by
    [killTargetApp] alone or within [startTargetApp], and ends by itself
    before the 5000 ms are over, nothing else being due meanwhile.  After
    the exit handler has run the guard is still on and the fallback still
    armed.  When the fallback fires, 5000 ms after the stop request, it
    sends no signal and turns the guard off. *)
Theorem early_exit_keeps_fallback (command : string) (args : list string)
    (options : Options) (st : State) (pid : nat) (e : Z)
    (code : option Z) (sig : option signal) :
  wf st ->
  childProcess st = Some pid -> running (child pid st) = true ->
  (pid < length (children st))%nat ->
  (forall t, In t (timers st) -> (now st + 5000 < due t)%Z) ->
  (now st <= e < now st + 5000)%Z ->
  let fallback := mkTimer (next_handle st) (now st + 5000) ForceKill in
  forall stopping,
    stopping = killTargetApp st \/
    stopping = startTargetApp command args options st ->
    let s1 := dispatch command args options (Exit pid code sig)
                (advance e stopping) in
    let s2 := advance (now st + 5000) s1 in
    (isRestarting s1 = true /\ In fallback (timers s1)) /\
    (isRestarting s2 = false /\ ~ In fallback (timers s2) /\
     trace s2 = trace s1 /\ forced s2 = forced st).
Proof.
  intros W Hc Hr Hlt Hq He fallback stopping Hs s1 s2.
  assert (K : exists cs more,
             stopping =
             mkState (childProcess stopping) (debounceTimer st) true cs
               (timers st ++ [fallback]) (S (next_handle st)) (now st)
               (trace st ++ Signalled (now st) pid SIGTERM :: more) /\
             running (nth pid cs (mkChild false false)) = true /\
             forall x, In x more -> match x with
                                    | Signalled _ _ SIGKILL => False
                                    | _ => True
                                    end).
  { destruct Hs as [-> | ->].
    - rewrite (killTargetApp_running st pid Hc Hr).
      exists (update pid (mkChild true true) (children st)), [].
      split; [reflexivity|]. split; [now rewrite nth_update|].
      intros x [].
    - rewrite startTargetApp_eq, (killTargetApp_running st pid Hc Hr).
      exists (update pid (mkChild true true) (children st)
              ++ [mkChild false true])%list,
             [Spawned (now st)
                (length (update pid (mkChild true true) (children st)))].
      split; [unfold spawn, set_childProcess, emit, set_children; simpl;
              now rewrite <- app_assoc|].
      split.
      + rewrite app_nth1 by (rewrite length_update; exact Hlt).
        now rewrite nth_update.
      + intros x [<-|[]]. exact I. }
  destruct K as (cs & more & E0 & Hrun & Hmore).
  assert (E1 : s1 =
    mkState None (debounceTimer st) true
      (update pid (mkChild (killed (nth pid cs (mkChild false false))) false) cs)
      (timers st ++ [fallback]) (S (next_handle st)) e
      (trace st ++ Signalled (now st) pid SIGTERM :: more)).
  { subst s1. rewrite E0. rewrite advance_idle.
    - unfold dispatch, child. simpl. rewrite Hrun.
      unfold on_exit, ended, child, set_childProcess, set_children. simpl.
      now rewrite Z.max_r by lia.
    - simpl. intros t Ht. apply in_app_or in Ht as [Ht|[<-|[]]]; simpl;
        [specialize (Hq t Ht)|]; lia. }
  assert (E2 : s2 =
    mkState None (debounceTimer st) false
      (update pid (mkChild (killed (nth pid cs (mkChild false false))) false) cs)
      (timers st) (S (next_handle st)) (now st + 5000)
      (trace st ++ Signalled (now st) pid SIGTERM :: more)).
  { subst s2. rewrite E1.
    rewrite (fallback_without_child _ (timers st) (next_handle st)
               (now st + 5000)); simpl; auto; try lia.
    intros u Hu. split; [now apply Hq|].
    destruct W as [_ _ W3 _]. specialize (W3 u Hu). lia. }
  rewrite E2, E1. simpl. repeat split; auto.
  - apply in_or_app; simpl; auto.
  - intros Hin. destruct W as [_ _ W3 _]. specialize (W3 _ Hin).
    simpl in W3. lia.
  - unfold forced at 1. simpl. apply forced_sigterm.
    intros x Hx. destruct Hx as [<-|Hx]; [exact I|now apply Hmore].
Qed.

End Supervisor.

(** ** The properties at sample inputs *)

Lemma killTargetApp_without_child_witness :
  killTargetApp initial = initial /\
  isRestarting (killTargetApp initial) = false /\
  trace (killTargetApp initial) = [] /\
  timers (killTargetApp initial) = [].
Proof.
  apply (killTargetApp_without_child initial). reflexivity.
Defined.

(** C1 fails as stated: [started] holds one running child, and after the
    next [startTargetApp] two children are running. *)
Lemma restart_overlaps :
  at_most_one_child started /\
  childProcess started = Some 0%nat /\
  ~ at_most_one_child
      (startTargetApp "node" ["server.js"] sample_options started).
Proof.
  unfold at_most_one_child. repeat split.
  - vm_compute. lia.
  - vm_compute. lia.
Qed.

Lemma startTargetApp_stops_then_spawns_witness :
  trace (startTargetApp "node" ["server.js"] sample_options started) =
    [Spawned 0 0; Signalled 0 0 SIGTERM; Spawned 0 1] /\
  running_children (startTargetApp "node" ["server.js"] sample_options started)
    = 2%nat /\
  trace (startTargetApp "node" ["server.js"] sample_options initial) =
    [Spawned 0 0].
Proof.
  pose proof (startTargetApp_stops_then_spawns "node" ["server.js"]
                sample_options started) as [A _].
  pose proof (startTargetApp_stops_then_spawns "node" ["server.js"]
                sample_options initial) as [_ B].
  destruct (A 0%nat) as (A1 & _ & _ & _ & _ & _ & A2).
  - reflexivity.
  - reflexivity.
  - simpl; lia.
  - destruct B as (B1 & _); [reflexivity|].
    split; [exact A1|]. split; [exact A2|exact B1].
Defined.

(** C2 fails as stated: the child ends one second after the stop request,
    and right after its exit the guard is still on and the fallback still
    pending. *)
Lemma early_exit_not_settled :
  children stopped_early = [mkChild true false] /\
  ~ stop_settled stopped_early /\
  children restarted_early = [mkChild true false; mkChild false true] /\
  ~ stop_settled restarted_early.
Proof.
  split; [reflexivity|]. split; [|split; [reflexivity|]].
  - intros [G _]. vm_compute in G. discriminate.
  - intros [G _]. vm_compute in G. discriminate.
Qed.

Lemma early_exit_keeps_fallback_witness :
  isRestarting stopped_early = true /\
  isRestarting (advance 5000 stopped_early) = false /\
  forced (advance 5000 stopped_early) = [].
Proof.
  change stopped_early
    with (dispatch "node" ["server.js"] sample_options
            (Exit 0 None (Some SIGTERM))
            (advance 1000 (killTargetApp started))).
  destruct (early_exit_keeps_fallback "node" ["server.js"] sample_options
              started 0%nat 1000%Z None (Some SIGTERM))
    with (stopping := killTargetApp started)
    as [(A & _) (B & _ & _ & C)].
  - exact wf_started.
  - reflexivity.
  - reflexivity.
  - simpl; lia.
  - simpl; contradiction.
  - simpl; lia.
  - left; reflexivity.
  - split; [exact A|]. split; [exact B|exact C].
Defined.

(** C4 at the failing input.  The child ignores SIGTERM for 5000 ms: the
    fallback fires, finds [killed] set by the SIGTERM of the stop request,
    and sends nothing; the child still runs.  After a restart the fallback
    finds the new child in [childProcess] and kills that one; the old
    child, the one asked to stop, is never sent SIGKILL. *)
Theorem fallback_spares_child :
  trace stop_ignored = [Spawned 0 0; Signalled 0 0 SIGTERM] /\
  forced stop_ignored = [] /\
  children stop_ignored = [mkChild true true] /\
  timers stop_ignored = [] /\
  now stop_ignored = 5000%Z /\
  trace restart_ignored =
    [Spawned 0 0; Restarting 100; Signalled 100 0 SIGTERM; Spawned 100 1;
     Signalled 5100 1 SIGKILL].
Proof. repeat split. Qed.

(** ** PathFilter at sample inputs *)

(** C7.  Scenario A of the specification. *)
Theorem scenario_A (RegExp_other : string -> string -> outcome bool) :
  let P := ["node_modules/**"; "*.log"] in
  shouldIgnore RegExp_other "node_modules/a/b.js" P = Returned true /\
  shouldIgnore RegExp_other "app.log" P = Returned true /\
  shouldIgnore RegExp_other "src/x.js" P = Returned false.
Proof. repeat split. Qed.

(** C9.  The dot of a pattern reaches the regular expression as it is and
    stands for any character: [catalog] does not contain [.log], and
    [*.log] ignores it. *)
Theorem dot_matches_any_character
    (RegExp_other : string -> string -> outcome bool) :
  JsString.includes "catalog" ".log" = false /\
  Regex.compile (JsString.replace_all_star ".*" "*.log") =
    Some [Regex.Many Regex.AnyChar; Regex.One Regex.AnyChar;
          Regex.One (Regex.Lit "l"); Regex.One (Regex.Lit "o");
          Regex.One (Regex.Lit "g")] /\
  shouldIgnore RegExp_other "catalog" ["*.log"] = Returned true.
Proof. repeat split. Qed.

(** ** The callback of a watcher *)

Section WatcherProperties.

Variable RegExp_other : string -> string -> outcome bool.
Variable join : string -> string -> string.
Variable cwd : string.

(** an event on an ignored path: the callback throws, before anything is
    done to the state *)
Lemma watchCallback_ignored (directory : string) (options : Options)
    (command : string) (args : list string) (eventType : string)
    (c : ascii) (name : string) (st : State) :
  shouldIgnore RegExp_other
    (JsString.replace_first (cwd ++ "/") "" (join directory (String c name)))
    (ignorePatterns options) = Returned true ->
  watchCallback RegExp_other join cwd directory options command args
    eventType (Some (String c name)) st = Threw ReferenceError.
Proof. intros H. unfold watchCallback. now rewrite H. Qed.

End WatcherProperties.

(** C6 at the failing input.  A change of [app.log] under the sample
    options, whose patterns ignore it: the callback does not return, it
    throws [ReferenceError]; a change of [src/x.js] goes on to
    [handleFileChange]. *)
Theorem ignored_event_throws
    (RegExp_other : string -> string -> outcome bool) :
  shouldIgnore RegExp_other "app.log" (ignorePatterns sample_options)
    = Returned true /\
  watchCallback RegExp_other join_slash "/home/proj" "/home/proj"
    sample_options "node" ["server.js"] "change" (Some "app.log") started
    = Threw ReferenceError /\
  watchCallback RegExp_other join_slash "/home/proj" "/home/proj"
    sample_options "node" ["server.js"] "change" (Some "src/x.js") started
    = Returned (handleFileChange "src/x.js" "change" sample_options
                  "node" ["server.js"] started).
Proof. repeat split. Qed.

(** ** DirectoryEnumerator *)

Section Enumeration.

Variable RegExp_other : string -> string -> outcome bool.
Variable join : string -> string -> string.
Variable rootPath : string.
Variable ignorePatterns : list string.

Lemma dirent_induction (P : dirent -> Prop) :
  (forall name, P (File name)) ->
  (forall name e, P (Directory name (Threw e))) ->
  (forall name entries, Forall P entries ->
                        P (Directory name (Returned entries))) ->
  forall node, P node.
Proof.
  intros HF HT HR. fix IH 1. intros [name|name [entries|e]].
  - apply HF.
  - apply HR. induction entries as [|entry entries IHentries].
    + constructor.
    + constructor; [apply IH|exact IHentries].
  - apply HT.
Qed.

Let kept (dir : string) : Prop :=
  shouldIgnore RegExp_other (relativize rootPath dir) ignorePatterns
  = Returned false.

Let total : Prop :=
  forall path e, shouldIgnore RegExp_other path ignorePatterns <> Threw e.

(** [traverse] returns, appends to the array, appends only directories that
    are not ignored, and appends what [descend] lists when the patterns
    never make [shouldIgnore] throw *)
Lemma traverse_spec (node : dirent) :
  forall (dirPath : string) (directories : list string),
  exists added,
    traverse RegExp_other join rootPath ignorePatterns dirPath node directories
    = (Returned tt, (directories ++ added)%list) /\
    Forall kept added /\
    (total -> added =
              descend RegExp_other join rootPath ignorePatterns dirPath node).
Proof.
  induction node as [name|name e|name entries IH] using dirent_induction;
    intros dirPath directories.
  - exists []. rewrite app_nil_r. auto.
  - exists []. rewrite app_nil_r. auto.
  - assert (L : exists added r,
               for_entries RegExp_other join rootPath ignorePatterns
                 (traverse RegExp_other join rootPath ignorePatterns)
                 dirPath entries directories
               = (r, (directories ++ added)%list) /\
               Forall kept added /\
               (total -> added =
                  subdirectories RegExp_other join rootPath ignorePatterns
                    (descend RegExp_other join rootPath ignorePatterns)
                    dirPath entries)).
    { revert directories.
      induction IH as [|entry entries Hentry _ IHentries]; intros directories.
      - exists [], (Returned tt). rewrite app_nil_r. simpl. auto.
      - destruct entry as [fname|dname contents]; [apply IHentries|].
        cbn [for_entries subdirectories]. unfold ignored.
        destruct (shouldIgnore RegExp_other
                    (relativize rootPath (join dirPath dname))
                    ignorePatterns) as [[|]|err] eqn:Ei.
        + apply IHentries.
        + destruct (Hentry (join dirPath dname)
                      (directories ++ [join dirPath dname])%list)
            as (sub & Es & Ks & Ds).
          rewrite Es.
          destruct (IHentries ((directories ++ [join dirPath dname]) ++ sub)%list)
            as (more & r & Em & Km & Dm).
          exists ((join dirPath dname :: sub) ++ more)%list, r.
          split; [|split].
          * rewrite Em. f_equal. now rewrite <- !app_assoc.
          * apply Forall_app. split; [constructor; auto|auto].
          * intros T. now rewrite <- (Ds T), <- (Dm T).
        + exists [], (Threw err). rewrite app_nil_r.
          split; [reflexivity|]. split; [constructor|].
          intros T. exfalso. eapply T; eauto. }
    destruct L as (added & r & E & K & D). exists added.
    cbn [traverse descend]. rewrite E. auto.
Qed.

Lemma drop_append (p s : string) :
  JsString.drop (String.length p) (p ++ s) = s.
Proof. induction p as [|c p IH]; simpl; [now destruct s|exact IH]. Qed.

(** what [path.join] appended to the root is taken off again *)
Lemma relativize_under_root (rel : string) :
  relativize rootPath (rootPath ++ "/" ++ rel) = rel.
Proof.
  unfold relativize.
  assert (E : JsString.replace_first rootPath "" (rootPath ++ "/" ++ rel)
              = "/" ++ rel).
  { assert (P : prefix rootPath (rootPath ++ "/" ++ rel) = true)
      by (apply prefix_spec; eauto).
    pose proof (drop_append rootPath ("/" ++ rel)) as D.
    destruct (rootPath ++ "/" ++ rel) as [|c t];
      cbn [JsString.replace_first]; rewrite P; exact D. }
  rewrite E. reflexivity.
Qed.

Lemma concat_snoc (sep x : string) (l : list string) (y : string) :
  String.concat sep (x :: l ++ [y]) = String.concat sep (x :: l) ++ sep ++ y.
Proof.
  revert x. induction l as [|z l IH]; intros x; [reflexivity|].
  change (String.concat sep (x :: (z :: l) ++ [y]))
    with (x ++ sep ++ String.concat sep (z :: l ++ [y])).
  change (String.concat sep (x :: z :: l))
    with (x ++ sep ++ String.concat sep (z :: l)).
  now rewrite IH, !append_assoc.
Qed.

(** a directory below the root: its path is the root, a slash and its
    root-relative path *)
Lemma under_root (segments : list string) (name : string) :
  String.concat "/" (rootPath :: segments ++ [name]) =
  rootPath ++ "/" ++ relative_path (segments ++ [name]).
Proof. destruct segments; reflexivity. Qed.

(** [traverse] on the directory at [segments] below the root, when
    [path.join] appends a slash and the name: what it appends to the array
    are the paths of directories whose root-relative path is not ignored,
    and the listing of the specification when [shouldIgnore] never throws *)
Lemma traverse_listed
    (join_appends : forall dir name, join dir name = dir ++ "/" ++ name)
    (node : dirent) :
  forall (segments : list string) (directories : list string),
  exists rels,
    traverse RegExp_other join rootPath ignorePatterns
      (String.concat "/" (rootPath :: segments)) node directories
    = (Returned tt,
       (directories ++ map (fun rel => (rootPath ++ "/" ++ rel)%string) rels)%list) /\
    Forall (fun rel => shouldIgnore RegExp_other rel ignorePatterns
                       = Returned false) rels /\
    (total -> rels = listed RegExp_other ignorePatterns segments node).
Proof.
  induction node as [name|name e|name entries IH] using dirent_induction;
    intros segments directories.
  - exists []. simpl. rewrite app_nil_r. auto.
  - exists []. simpl. rewrite app_nil_r. auto.
  - assert (L : exists rels r,
               for_entries RegExp_other join rootPath ignorePatterns
                 (traverse RegExp_other join rootPath ignorePatterns)
                 (String.concat "/" (rootPath :: segments)) entries directories
               = (r, (directories ++
                      map (fun rel => (rootPath ++ "/" ++ rel)%string) rels)%list) /\
               Forall (fun rel => shouldIgnore RegExp_other rel ignorePatterns
                                  = Returned false) rels /\
               (total -> rels =
                  listed_entries RegExp_other ignorePatterns
                    (listed RegExp_other ignorePatterns) segments entries)).
    { revert directories.
      induction IH as [|entry entries Hentry _ IHentries]; intros directories.
      - exists [], (Returned tt). simpl. rewrite app_nil_r. auto.
      - destruct entry as [fname|dname contents]; [apply IHentries|].
        cbn [for_entries listed_entries]. unfold pruned.
        rewrite join_appends, <- concat_snoc, (under_root segments dname),
          relativize_under_root.
        destruct (shouldIgnore RegExp_other
                    (relative_path (segments ++ [dname])) ignorePatterns)
          as [[|]|err] eqn:Ei.
        + apply IHentries.
        + rewrite <- (under_root segments dname).
          destruct (Hentry (segments ++ [dname])%list
                      (directories ++
                       [String.concat "/" (rootPath :: segments ++ [dname])])%list)
            as (sub & Es & Ks & Ds).
          rewrite Es.
          destruct (IHentries
                      ((directories ++
                        [String.concat "/" (rootPath :: segments ++ [dname])]) ++
                       map (fun rel => (rootPath ++ "/" ++ rel)%string) sub)%list)
            as (more & r & Em & Km & Dm).
          exists ((relative_path (segments ++ [dname]) :: sub) ++ more)%list, r.
          split; [|split].
          * rewrite Em. f_equal. rewrite map_app. cbn [map app].
            rewrite (under_root segments dname).
            now rewrite <- !app_assoc.
          * apply Forall_app. split; [constructor; auto|auto].
          * intros T. now rewrite <- (Ds T), <- (Dm T).
        + exists [], (Threw err). simpl. rewrite app_nil_r.
          split; [reflexivity|]. split; [constructor|].
          intros T. exfalso. eapply T; eauto. }
    destruct L as (rels & r & E & K & D). exists rels.
    cbn [traverse listed]. rewrite E. auto.
Qed.

(** C8.  [getWatchDirectories] always returns, and returns a list that
    starts with the root; no directory of the list after the root is one
    whose path, made relative as the code does, is ignored; and, the
    patterns being such that [shouldIgnore] never throws, the list is the
    enumeration by the same test.  Where [path.join] appends a slash and
    the name, as it does below a resolved root, the path tested is the
    root-relative one, the names from the root down joined by slashes: the
    list is the root followed by directories at root-relative paths that
    are not ignored, and, [shouldIgnore] never throwing, it is the listing
    of the specification: a subdirectory whose root-relative path is
    ignored is left out with all that is below it, and a directory that
    cannot be read contributes itself and nothing below, the ones after it
    being listed still. *)
Theorem getWatchDirectories_enumerates (root : dirent) :
  (exists rest,
      getWatchDirectories RegExp_other join rootPath ignorePatterns root
      = Returned (rootPath :: rest) /\
      Forall (fun dir =>
                shouldIgnore RegExp_other (relativize rootPath dir)
                  ignorePatterns = Returned false) rest) /\
  ((forall path e,
       shouldIgnore RegExp_other path ignorePatterns <> Threw e) ->
   getWatchDirectories RegExp_other join rootPath ignorePatterns root
   = Returned (enumerate RegExp_other join rootPath ignorePatterns root)) /\
  ((forall dir name, join dir name = dir ++ "/" ++ name) ->
   (exists rels,
       getWatchDirectories RegExp_other join rootPath ignorePatterns root
       = Returned (rootPath :: map (fun rel => rootPath ++ "/" ++ rel) rels) /\
       Forall (fun rel => shouldIgnore RegExp_other rel ignorePatterns
                          = Returned false) rels) /\
   ((forall path e,
        shouldIgnore RegExp_other path ignorePatterns <> Threw e) ->
    getWatchDirectories RegExp_other join rootPath ignorePatterns root
    = Returned (listing RegExp_other rootPath ignorePatterns root))).
Proof.
  unfold getWatchDirectories, enumerate, listing.
  destruct (traverse_spec root rootPath [rootPath]) as (added & E & K & D).
  split; [|split].
  - rewrite E. simpl. exists added. split; [reflexivity|exact K].
  - intros T. rewrite E. simpl. now rewrite <- (D T).
  - intros J.
    destruct (traverse_listed J root [] [rootPath]) as (rels & E' & K' & D').
    simpl String.concat in E'. rewrite E'. simpl. split.
    + exists rels. split; [reflexivity|exact K'].
    + intros T. now rewrite <- (D' T).
Qed.

End Enumeration.

(** C5 fails as stated: the star of [a*z] matches the separator of [a/z],
    which the reading within one segment excludes; and the pair of stars of
    [a/**/b] reaches one level down but not two. *)
Lemma wildcard_crosses_separator :
  shouldIgnore no_RegExp_other "a/z" ["a*z"] = Returned true /\
  Regex.test (segment_regex "a*z") "a/z" = false /\
  shouldIgnore no_RegExp_other "a/x/b" ["a/**/b"] = Returned true /\
  shouldIgnore no_RegExp_other "a/x/y/b" ["a/**/b"] = Returned false.
Proof. repeat split. Qed.

Lemma shouldIgnore_rules_witness :
  (exists b, shouldIgnore no_RegExp_other "logs/app.log"
               ["node_modules/**"; "*.log"; "src"] = Returned b) /\
  pattern_test no_RegExp_other "lib/src/x.js" "src" = Returned true /\
  pattern_test no_RegExp_other "a/z" "a*z" = Returned true /\
  pattern_test no_RegExp_other "node_modules/a/b.js" "node_modules/**"
    = Returned true.
Proof.
  split; [|split; [|split]].
  - apply (proj1 (shouldIgnore_rules no_RegExp_other "logs/app.log"
                    ["node_modules/**"; "*.log"; "src"])).
    reflexivity.
  - apply (proj1 (proj2 (shouldIgnore_rules no_RegExp_other "lib/src/x.js" []))
             "src").
    reflexivity.
  - apply (proj1 (proj2 (proj2 (shouldIgnore_rules no_RegExp_other "a/z" [])))
             "a*z"); reflexivity.
  - apply (proj2 (proj2 (proj2 (shouldIgnore_rules no_RegExp_other
                                  "node_modules/a/b.js" [])))
             "node_modules/" "" "a"%char "/b.js"); reflexivity.
Defined.

(** A root whose own path holds [build/], under the pattern [build/**]:
    the paths tested are the root-relative ones, so [src] and [src/build]
    are kept and [src/build/out] is not; [secret] cannot be read; [dist] is
    ignored with what is below. *)
Lemma getWatchDirectories_enumerates_witness :
  getWatchDirectories no_RegExp_other join_slash "/srv/build/app"
    ["build/**"; "dist"; "*.log"] build_tree =
  Returned ["/srv/build/app"; "/srv/build/app/src"; "/srv/build/app/src/build";
            "/srv/build/app/secret"; "/srv/build/app/test"].
Proof.
  apply (proj2 (proj2 (proj2 (getWatchDirectories_enumerates no_RegExp_other
                                join_slash "/srv/build/app"
                                ["build/**"; "dist"; "*.log"] build_tree))
                  (fun dir name => eq_refl))).
  intros path e. apply shouldIgnore_total. reflexivity.
Defined.

(** * Further properties of the code *)

(** ** PathFilter *)

Section PathFilterMore.

Variable RegExp_other : string -> string -> outcome bool.

Lemma endsWith_spec (s suffix : string) :
  JsString.endsWith s suffix = true <-> exists before, s = before ++ suffix.
Proof.
  induction s as [|c s IH]; cbn [JsString.endsWith].
  - rewrite orb_false_r, String.eqb_eq. split.
    + intros <-. now exists "".
    + intros [before H]. destruct before; [exact H|discriminate].
  - rewrite orb_true_iff, String.eqb_eq, IH. split.
    + intros [<-|[before ->]]; [now exists ""|now exists (String c before)].
    + intros [before H]. destruct before as [|b before].
      * left. exact H.
      * right. exists before. simpl in H. congruence.
Qed.

(** X1.  A path is watched when no extension is listed, or when it ends
    with one of the listed extensions, compared as written. *)
Theorem shouldWatch_spec (filePath : string) (extensions : list string) :
  shouldWatch filePath extensions = true <->
  extensions = [] \/
  exists ext before, In ext extensions /\ filePath = before ++ ext.
Proof.
  unfold shouldWatch. destruct extensions as [|e es].
  - split; auto.
  - rewrite existsb_exists. split.
    + intros (ext & Hin & H). right. apply endsWith_spec in H as [before H].
      eauto.
    + intros [H|(ext & before & Hin & H)]; [discriminate|].
      exists ext. split; [exact Hin|]. apply endsWith_spec. eauto.
Qed.

(** X2.  The patterns are tried in order: the answer for a list followed
    by another is the answer for the first list when that is "ignore" or
    a throw, and the answer for the second list otherwise.  So a path that
    the first patterns ignore stays ignored whatever is appended. *)
Theorem shouldIgnore_append (filePath : string) (P Q : list string) :
  shouldIgnore RegExp_other filePath (P ++ Q)%list =
  match shouldIgnore RegExp_other filePath P with
  | Returned false => shouldIgnore RegExp_other filePath Q
  | r => r
  end.
Proof.
  unfold shouldIgnore. induction P as [|pattern P IH]; simpl; auto.
  destruct (pattern_test RegExp_other filePath pattern) as [[|]|e]; auto.
Qed.

Lemma occurs_trans (a b c : string) : occurs a b -> occurs b c -> occurs a c.
Proof.
  intros (p1 & q1 & ->) (p2 & q2 & ->).
  exists (p2 ++ p1), (q1 ++ q2). now rewrite !append_assoc.
Qed.

Lemma pattern_test_inherited (pattern path : string) :
  in_fragment pattern = true ->
  pattern_test RegExp_other path pattern = Returned true ->
  forall longer, occurs path longer ->
                 pattern_test RegExp_other longer pattern = Returned true.
Proof.
  unfold in_fragment, regexp_source, pattern_test, RegExp_test.
  intros F H longer O.
  destruct (JsString.includes pattern "**").
  - destruct (Regex.compile _) as [re|]; [|discriminate].
    inversion H as [T]. rewrite T. f_equal.
    apply test_spec in T as (part & Op & M). apply test_spec.
    exists part. split; [eapply occurs_trans; eauto|exact M].
  - destruct (JsString.includes pattern "*").
    + destruct (Regex.compile _) as [re|]; [|discriminate].
      inversion H as [T]. rewrite T. f_equal.
      apply test_spec in T as (part & Op & M). apply test_spec.
      exists part. split; [eapply occurs_trans; eauto|exact M].
    + inversion H as [T]. rewrite T. f_equal.
      apply includes_spec in T. apply includes_spec.
      eapply occurs_trans; eauto.
Qed.

(** X3.  With patterns of the modelled fragment no match is anchored: when
    a path is ignored, every path that contains it is ignored too, what is
    below an ignored directory in particular. *)
Theorem shouldIgnore_inherited (path : string) (P : list string) :
  forallb in_fragment P = true ->
  shouldIgnore RegExp_other path P = Returned true ->
  forall before after,
    shouldIgnore RegExp_other (before ++ path ++ after) P = Returned true.
Proof.
  intros F H before after.
  assert (T : forall q x, In x P ->
                exists b, pattern_test RegExp_other q x = Returned b).
  { intros q x Hx. apply pattern_test_total.
    rewrite forallb_forall in F. auto. }
  unfold shouldIgnore in *.
  apply (some_spec (pattern_test RegExp_other path) P (T path)) in H
    as (pattern & Hin & Hp).
  apply (some_spec _ P (T (before ++ path ++ after))).
  exists pattern. split; [exact Hin|].
  apply (pattern_test_inherited pattern path); auto.
  - rewrite forallb_forall in F. auto.
  - now exists before, after.
Qed.

End PathFilterMore.

Lemma shouldIgnore_inherited_witness :
  shouldIgnore no_RegExp_other "/srv/node_modules/a/index.js"
    ["node_modules/**"; "*.log"] = Returned true.
Proof.
  apply (shouldIgnore_inherited no_RegExp_other "node_modules/a"
           ["node_modules/**"; "*.log"] eq_refl eq_refl "/srv/" "/index.js").
Defined.

(** ** The callback of a watcher *)

Section WatcherMore.

Variable RegExp_other : string -> string -> outcome bool.
Variable join : string -> string -> string.
Variable cwd : string.

(** X4.  Whatever the event, the callback of a watcher leaves the state as
    it is or hands the change to [handleFileChange]; it does the latter
    only for a file name that is given, whose path relative to the working
    directory no pattern ignores and whose extension is watched. *)
Theorem watchCallback_filters (directory : string) (options : Options)
    (command : string) (args : list string) (eventType : string)
    (filename : option string) (st st' : State) :
  watchCallback RegExp_other join cwd directory options command args
    eventType filename st = Returned st' ->
  st' = st \/
  exists name,
    filename = Some name /\ name <> "" /\
    let relativePath :=
      JsString.replace_first (cwd ++ "/") "" (join directory name) in
    shouldIgnore RegExp_other relativePath (ignorePatterns options)
      = Returned false /\
    shouldWatch relativePath (watchExtensions options) = true /\
    st' = handleFileChange relativePath eventType options command args st.
Proof.
  unfold watchCallback. destruct filename as [[|c name]|].
  - intros H; inversion H; auto.
  - destruct (shouldIgnore _ _ _) as [[|]|e] eqn:Ei; try discriminate.
    destruct (shouldWatch _ _) eqn:Ew; simpl; intros H; inversion H; auto.
    right. exists (String c name). repeat split; auto. discriminate.
  - intros H; inversion H; auto.
Qed.

End WatcherMore.

Lemma watchCallback_filters_witness :
  handleFileChange "src/x.js" "change" sample_options "node" ["server.js"]
    started = started \/
  exists name,
    Some "src/x.js" = Some name /\ name <> "" /\
    let relativePath :=
      JsString.replace_first ("/home/proj" ++ "/") ""
        (join_slash "/home/proj" name) in
    shouldIgnore no_RegExp_other relativePath (ignorePatterns sample_options)
      = Returned false /\
    shouldWatch relativePath (watchExtensions sample_options) = true /\
    handleFileChange "src/x.js" "change" sample_options "node" ["server.js"]
      started
    = handleFileChange relativePath "change" sample_options "node"
        ["server.js"] started.
Proof.
  apply (watchCallback_filters no_RegExp_other join_slash "/home/proj"
           "/home/proj" sample_options "node" ["server.js"] "change"
           (Some "src/x.js") started).
  reflexivity.
Defined.

(** ** DebounceController and ProcessSupervisor *)

Section SupervisorMore.

Variable command : string.
Variable args : list string.
Variable options : Options.

Lemma one_restart_in_queue (ts : list timer) :
  NoDup (map handle ts) ->
  (forall t u, In t ts -> In u ts ->
               is_restart (action t) = true -> is_restart (action u) = true ->
               handle t = handle u) ->
  (length (filter (fun t => is_restart (action t)) ts) <= 1)%nat.
Proof.
  induction ts as [|t ts IH]; simpl; intros N H; [lia|].
  inversion N as [|? ? Ht Hts]; subst.
  destruct (is_restart (action t)) eqn:Rt.
  - destruct (filter (fun t0 => is_restart (action t0)) ts) as [|u us] eqn:F;
      [simpl; lia|].
    exfalso. assert (Hu : In u (filter (fun t0 => is_restart (action t0)) ts))
      by (rewrite F; now left).
    apply filter_In in Hu as [Hu Ru]. apply Ht.
    assert (E : handle t = handle u)
      by (apply H; [now left|now right|exact Rt|exact Ru]).
    rewrite E. now apply in_map.
  - apply IH; auto.
Qed.

(** X5.  At no point of a run are two debounce timers pending: a change
    always clears the one before it arms the next. *)
Theorem pending_restart_unique (st : State) :
  wf st ->
  forall (schedule : list (Z * event)) (T : Z),
    (length (pending_restarts
               (advance T (run command args options schedule st))) <= 1)%nat.
Proof.
  intros W schedule T.
  pose proof (wf_advance T _ (wf_run command args options schedule st W))
    as [W1 W2 _ _].
  apply one_restart_in_queue; auto.
  intros t u Ht Hu Rt Ru.
  pose proof (W1 t Ht Rt) as A. pose proof (W1 u Hu Ru) as B. congruence.
Qed.

Lemma set_now_now (st : State) : set_now (now st) st = st.
Proof. destruct st; reflexivity. Qed.

(** X6.  While the guard is on, changes are lost: as long as no timer
    comes due, a run of changes leaves everything but the clock as it was,
    and no restart is pending for them afterwards. *)
Theorem guard_drops_changes (st : State) (T : Z)
    (schedule : list (Z * event)) :
  isRestarting st = true ->
  (forall t, In t (timers st) -> (T < due t)%Z) ->
  Forall (fun te => is_change (snd te) = true /\ (fst te <= T)%Z) schedule ->
  exists t, run command args options schedule st = set_now t st.
Proof.
  revert st. induction schedule as [|[t ev] schedule IH]; intros st G Q F.
  - exists (now st). simpl. now rewrite set_now_now.
  - inversion F as [|? ? [Hc Ht] F']; subst. simpl in Hc, Ht.
    simpl. rewrite advance_idle by (intros u Hu; specialize (Q u Hu); lia).
    destruct ev as [f k| |]; try discriminate. simpl.
    unfold handleFileChange. simpl. rewrite G.
    destruct (IH (set_now (Z.max (now st) t) st)) as [t' E]; auto.
    exists t'. rewrite E. reflexivity.
Qed.

(** X7.  The end of a child never starts another one: with no timer
    pending, a run without changes spawns nothing and signals nothing,
    however the children end. *)
Theorem exit_does_not_restart (st : State) (schedule : list (Z * event)) :
  timers st = [] ->
  Forall (fun te => is_change (snd te) = false) schedule ->
  trace (run command args options schedule st) = trace st /\
  timers (run command args options schedule st) = [].
Proof.
  revert st. induction schedule as [|[t ev] schedule IH]; intros st Q F.
  - simpl. auto.
  - inversion F as [|? ? Hc F']; subst. simpl in Hc. simpl.
    rewrite advance_idle by (rewrite Q; intros u []).
    assert (E : trace (dispatch command args options ev
                         (set_now (Z.max (now st) t) st)) = trace st /\
                timers (dispatch command args options ev
                          (set_now (Z.max (now st) t) st)) = []).
    { destruct ev as [f k|pid code sig|pid]; try discriminate; simpl;
        unfold child; simpl;
        destruct (running (nth pid (children st) (mkChild false false)));
        simpl; auto. }
    destruct E as [E1 E2]. destruct (IH _ E2 F') as [I1 I2].
    split; [congruence|exact I2].
Qed.

End SupervisorMore.

Lemma pending_restart_unique_witness :
  (length (pending_restarts
             (advance 95 (run "node" ["server.js"] sample_options
                            [(0, change); (50, change); (90, change)]%Z
                            started))) <= 1)%nat.
Proof.
  apply (pending_restart_unique "node" ["server.js"] sample_options started
           wf_started).
Defined.

Lemma guard_drops_changes_witness :
  exists t,
    run "node" ["server.js"] sample_options
      [(10, change); (2000, change); (4999, change)]%Z restarting
    = set_now t restarting.
Proof.
  apply (guard_drops_changes "node" ["server.js"] sample_options restarting
           4999%Z).
  - reflexivity.
  - intros t Ht. vm_compute in Ht. destruct Ht as [<-|[]]. reflexivity.
  - repeat constructor; simpl; lia.
Defined.

Lemma exit_does_not_restart_witness :
  trace (run "node" ["server.js"] sample_options
           [(1000%Z, Exit 0 (Some 1%Z) None)] started) = [Spawned 0 0] /\
  timers (run "node" ["server.js"] sample_options
            [(1000%Z, Exit 0 (Some 1%Z) None)] started) = [].
Proof.
  apply (exit_does_not_restart "node" ["server.js"] sample_options started).
  - reflexivity.
  - repeat constructor.
Defined.

(** ** Signals *)

Section Signals.

Variable command : string.
Variable args : list string.
Variable options : Options.

Lemma nth_update_other {A : Type} (n m : nat) (x d : A) (l : list A) :
  n <> m -> nth n (update m x l) d = nth n l d.
Proof.
  revert n m; induction l as [|y l IH]; intros [|n] [|m] H; simpl; auto;
    try congruence.
Qed.

Lemma signalled_app (tr1 tr2 : list effect) :
  signalled (tr1 ++ tr2) = (signalled tr1 ++ signalled tr2)%list.
Proof. unfold signalled. apply flat_map_app. Qed.

Lemma killed_in_range (pid : nat) (st : State) :
  killed (child pid st) = true -> (pid < length (children st))%nat.
Proof.
  unfold child. intros H.
  destruct (Nat.lt_ge_cases pid (length (children st))) as [L|L]; auto.
  rewrite nth_overflow in H by exact L. discriminate.
Qed.

(** a signal to a child that was never signalled *)
Lemma kill_marks (pid : nat) (sig : signal) (st : State) :
  (pid < length (children st))%nat -> killed (child pid st) = false ->
  (forall q, In q (signalled (trace st)) -> killed (child q st) = true) ->
  NoDup (signalled (trace st)) ->
  let st' := kill pid sig st in
  childProcess st' = childProcess st /\
  (forall q, In q (signalled (trace st')) -> killed (child q st') = true) /\
  NoDup (signalled (trace st')).
Proof.
  intros L K S N. unfold kill. destruct (running (child pid st)); simpl; auto.
  split; [reflexivity|]. rewrite signalled_app. simpl. split.
  - intros q Hq. unfold child. simpl.
    apply in_app_or in Hq as [Hq|[<-|[]]].
    + assert (q <> pid) by (intros ->; rewrite (S pid Hq) in K; discriminate).
      rewrite nth_update_other by assumption. now apply S.
    + now rewrite nth_update.
  - apply NoDup_app; auto.
    + constructor; [intros []|constructor].
    + intros q Hq [<-|[]]. rewrite (S _ Hq) in K. discriminate.
Qed.

(** states that differ in the timers, the clock or the guard only *)
Lemma tidy_same (st st' : State) :
  childProcess st' = childProcess st -> children st' = children st ->
  signalled (trace st') = signalled (trace st) ->
  tidy st -> tidy st'.
Proof.
  intros A B C [T1 T2 T3]. unfold child in *.
  constructor; unfold child; rewrite ?A, ?B, ?C; auto.
Qed.

Lemma tidy_startTargetApp (st : State) :
  tidy st -> tidy (startTargetApp command args options st).
Proof.
  intros [T1 T2 T3]. rewrite startTargetApp_eq.
  assert (M : (forall q, In q (signalled (trace (killTargetApp st))) ->
                         killed (child q (killTargetApp st)) = true) /\
              NoDup (signalled (trace (killTargetApp st)))).
  { unfold killTargetApp. destruct (childProcess st) as [pid|] eqn:Ec; auto.
    destruct (T1 pid eq_refl) as [L K].
    destruct (kill_marks pid SIGTERM (set_isRestarting true st) L K T2 T3)
      as (_ & A & B).
    split; [exact A|exact B]. }
  destruct M as [M1 M2]. set (k := killTargetApp st) in *.
  constructor; unfold child; simpl.
  - intros pid H. inversion H; subst. rewrite length_app. simpl.
    split; [lia|]. rewrite app_nth2 by lia. now rewrite Nat.sub_diag.
  - rewrite signalled_app. simpl. rewrite app_nil_r. intros q Hq.
    pose proof (M1 q Hq) as Hk. pose proof (killed_in_range _ _ Hk) as L.
    rewrite app_nth1 by exact L. exact Hk.
  - rewrite signalled_app. simpl. now rewrite app_nil_r.
Qed.

Lemma tidy_forceKill (st : State) : tidy st -> tidy (forceKill st).
Proof.
  intros T. pose proof T as [T1 T2 T3]. unfold forceKill.
  destruct (childProcess st) as [pid|] eqn:Ec.
  - destruct (negb (killed (child pid st))).
    + destruct (T1 pid eq_refl) as [L K].
      destruct (kill_marks pid SIGKILL st L K T2 T3) as (_ & A & B).
      constructor; simpl; [discriminate|exact A|exact B].
    + eapply tidy_same; [| | |exact T]; reflexivity.
  - eapply tidy_same; [| | |exact T]; reflexivity.
Qed.

Lemma tidy_handleFileChange (filename eventType : string) (st : State) :
  tidy st ->
  tidy (handleFileChange filename eventType options command args st).
Proof.
  intros T. unfold handleFileChange. destruct (isRestarting st); auto.
  eapply tidy_same; [| | |exact T]; destruct (debounceTimer st); reflexivity.
Qed.

Lemma tidy_ended (pid : nat) (st : State) :
  running (child pid st) = true -> tidy st ->
  tidy (set_childProcess None (ended pid st)).
Proof.
  intros R [T1 T2 T3].
  assert (L : (pid < length (children st))%nat).
  { unfold child in R.
    destruct (Nat.lt_ge_cases pid (length (children st))) as [L|L]; auto.
    rewrite nth_overflow in R by exact L. discriminate. }
  constructor; simpl; auto; [discriminate|].
  intros q Hq. specialize (T2 q Hq). unfold child in *. simpl.
  destruct (Nat.eq_dec q pid) as [->|N].
  - rewrite nth_update by exact L. exact T2.
  - now rewrite nth_update_other.
Qed.

Lemma tidy_dispatch (ev : event) (st : State) :
  tidy st -> tidy (dispatch command args options ev st).
Proof.
  intros T. destruct ev as [f k|pid code sig|pid]; simpl.
  - now apply tidy_handleFileChange.
  - destruct (running (child pid st)) eqn:R; auto. now apply tidy_ended.
  - destruct (running (child pid st)) eqn:R; auto. now apply tidy_ended.
Qed.

End Signals.

Lemma tidy_fire (t : timer) (st : State) : tidy st -> tidy (fire t st).
Proof.
  intros T. unfold fire, run_callback.
  assert (T' : tidy (set_now (Z.max (now st) (due t))
                       (clearTimeout (handle t) st)))
    by (eapply tidy_same; [| | |exact T]; reflexivity).
  destruct (action t) as [|c a o].
  - now apply tidy_forceKill.
  - unfold restart. apply tidy_startTargetApp.
    eapply tidy_same; [| | |exact T']; try reflexivity.
    simpl. rewrite signalled_app. simpl. now rewrite app_nil_r.
Qed.

Lemma tidy_advance (target : Z) (st : State) : tidy st -> tidy (advance target st).
Proof.
  intros T. unfold advance.
  assert (R : forall fuel s, tidy s -> tidy (run_timers fuel target s)).
  { induction fuel as [|fuel IH]; simpl; intros s Ts; auto.
    destruct (next_due target s); auto. apply IH. now apply tidy_fire. }
  eapply tidy_same; [| | |apply (R (budget st) st T)]; reflexivity.
Qed.

Lemma tidy_run (command : string) (args : list string) (options : Options)
    (schedule : list (Z * event)) :
  forall st, tidy st -> tidy (run command args options schedule st).
Proof.
  induction schedule as [|[t ev] schedule IH]; simpl; intros st T; auto.
  apply IH. apply tidy_dispatch. now apply tidy_advance.
Qed.

Lemma signalled_In (tr : list effect) (t : Z) (pid : nat) (sig : signal) :
  In (Signalled t pid sig) tr -> In pid (signalled tr).
Proof.
  unfold signalled. intros H. apply in_flat_map.
  exists (Signalled t pid sig). split; [exact H|now left].
Qed.

Lemma signalled_once (tr : list effect) :
  NoDup (signalled tr) ->
  forall t1 t2 pid s1 s2,
    In (Signalled t1 pid s1) tr -> In (Signalled t2 pid s2) tr -> s1 = s2.
Proof.
  induction tr as [|e tr IH]; simpl; intros N t1 t2 pid s1 s2 H1 H2;
    [contradiction|].
  destruct e as [t p|t p s|t]; simpl in N.
  - destruct H1 as [H1|H1], H2 as [H2|H2]; try discriminate. eauto.
  - inversion N as [|? ? Hp Hn]; subst.
    destruct H1 as [H1|H1], H2 as [H2|H2].
    + congruence.
    + inversion H1; subst. exfalso. apply Hp. eapply signalled_In; eauto.
    + inversion H2; subst. exfalso. apply Hp. eapply signalled_In; eauto.
    + eauto.
  - destruct H1 as [H1|H1], H2 as [H2|H2]; try discriminate. eauto.
Qed.

(** X8.  In a run of changes, exits and spawn errors no child is sent two
    signals.  In particular a child that was sent SIGTERM is never sent
    SIGKILL: the forceful kill of the fallback can only reach a child that
    was not asked to stop. *)
Theorem one_signal_per_child (command : string) (args : list string)
    (options : Options) (st : State) :
  tidy st ->
  forall (schedule : list (Z * event)) (T : Z),
    let s := advance T (run command args options schedule st) in
    NoDup (signalled (trace s)) /\
    forall pid t1 t2,
      In (Signalled t1 pid SIGTERM) (trace s) ->
      ~ In (Signalled t2 pid SIGKILL) (trace s).
Proof.
  intros Ti schedule T s.
  pose proof (tidy_advance T _ (tidy_run command args options schedule st Ti))
    as [_ _ N].
  fold s in N. split; [exact N|]. intros pid t1 t2 H1 H2.
  pose proof (signalled_once _ N _ _ _ _ _ H1 H2). discriminate.
Qed.

Lemma tidy_initial : tidy initial.
Proof.
  constructor; simpl; [discriminate|contradiction|constructor].
Qed.

Lemma tidy_started : tidy started.
Proof. apply tidy_startTargetApp. exact tidy_initial. Qed.

Lemma one_signal_per_child_witness :
  NoDup (signalled (trace restart_ignored)) /\
  forall pid t1 t2,
    In (Signalled t1 pid SIGTERM) (trace restart_ignored) ->
    ~ In (Signalled t2 pid SIGKILL) (trace restart_ignored).
Proof.
  apply (one_signal_per_child "node" ["server.js"] sample_options started
           tidy_started [(0%Z, change)] 5100%Z).
Defined.

(** ** The exit handler of a replaced child *)

(** X9.  The exit handler of a child clears [childProcess] whichever child
    it holds.  When a child that was replaced ends, the variable holds its
    successor: the successor is forgotten while it runs, the next restart
    sends it no signal, and it keeps running beside the child spawned
    then. *)
Theorem stale_exit_forgets_successor (command : string) (args : list string)
    (options : Options) (st : State) (old : nat)
    (code : option Z) (sig : option signal) :
  childProcess st = Some old -> running (child old st) = true ->
  (old < length (children st))%nat ->
  let new := length (children st) in
  let s := dispatch command args options (Exit old code sig)
             (startTargetApp command args options st) in
  let s' := startTargetApp command args options s in
  (childProcess s = None /\ running (child new s) = true) /\
  (trace s' = (trace s ++ [Spawned (now st) (S new)])%list /\
   running (child new s') = true /\ running (child (S new) s') = true).
Proof.
  intros Hc Hr Hlt new s s'.
  assert (E : s =
    mkState None (debounceTimer st) true
      (update old (mkChild true false)
         (update old (mkChild true true) (children st) ++ [mkChild false true]))
      (timers st ++ [mkTimer (next_handle st) (now st + 5000) ForceKill])
      (S (next_handle st)) (now st)
      ((trace st ++ [Signalled (now st) old SIGTERM]) ++
       [Spawned (now st) new])).
  { subst s. rewrite startTargetApp_eq, (killTargetApp_running st old Hc Hr).
    unfold dispatch, spawn, child. simpl.
    rewrite app_nth1 by (rewrite length_update; exact Hlt).
    rewrite nth_update by exact Hlt. simpl.
    unfold on_exit, ended, child, set_childProcess, set_children. simpl.
    rewrite app_nth1 by (rewrite length_update; exact Hlt).
    rewrite nth_update by exact Hlt. simpl.
    now rewrite length_update. }
  assert (Hnew : nth new
                   (update old (mkChild true false)
                      (update old (mkChild true true) (children st)
                       ++ [mkChild false true]))
                   (mkChild false false) = mkChild false true).
  { rewrite nth_update_other by (unfold new; lia).
    rewrite app_nth2 by (rewrite length_update; unfold new; lia).
    rewrite length_update. unfold new. now rewrite Nat.sub_diag. }
  assert (Hlen : length
                   (update old (mkChild true false)
                      (update old (mkChild true true) (children st)
                       ++ [mkChild false true])) = S new).
  { rewrite length_update, length_app, length_update. simpl. unfold new. lia. }
  split.
  - rewrite E. unfold child. simpl. now rewrite Hnew.
  - subst s'. rewrite E. unfold startTargetApp, spawn, child. simpl.
    rewrite Hlen. split; [reflexivity|]. split.
    + rewrite app_nth1 by (rewrite Hlen; lia). now rewrite Hnew.
    + rewrite app_nth2 by (rewrite Hlen; lia).
      rewrite Hlen. now rewrite Nat.sub_diag.
Qed.

Lemma stale_exit_forgets_successor_witness :
  childProcess (dispatch "node" ["server.js"] sample_options
                  (Exit 0 None (Some SIGTERM)) restarting) = None /\
  trace (startTargetApp "node" ["server.js"] sample_options
           (dispatch "node" ["server.js"] sample_options
              (Exit 0 None (Some SIGTERM)) restarting)) =
  [Spawned 0 0; Signalled 0 0 SIGTERM; Spawned 0 1; Spawned 0 2].
Proof.
  destruct (stale_exit_forgets_successor "node" ["server.js"] sample_options
              started 0%nat None (Some SIGTERM))
    as [[A _] [B _]].
  - reflexivity.
  - reflexivity.
  - simpl; lia.
  - split; [exact A|exact B].
Defined.

(** ** WatchSet *)

Section WatchSetProperties.

Variable watchable : string -> bool.

Lemma close_each (l : list nat) :
  forall ws,
    fold_left (fun ws w => close w ws) l ws =
    mkWatchSet (fileWatchers ws)
      (filter (fun h => negb (existsb (Nat.eqb (fst h)) l)) (open_handles ws))
      (next_watcher ws).
Proof.
  induction l as [|w l IH]; intros ws; simpl.
  - destruct ws as [fw op n]; simpl. f_equal.
    induction op as [|h op IHop]; simpl; congruence.
  - rewrite IH. simpl. f_equal.
    induction (open_handles ws) as [|h op IHop]; simpl; auto.
    destruct (fst h =? w)%nat; simpl; auto.
    destruct (negb (existsb (Nat.eqb (fst h)) l)); simpl; congruence.
Qed.

Lemma none_left_open (l : list nat) (op : list (nat * string)) :
  (forall h, In h op -> In (fst h) l) ->
  filter (fun h => negb (existsb (Nat.eqb (fst h)) l)) op = [].
Proof.
  induction op as [|h op IH]; simpl; intros A; auto.
  assert (E : existsb (Nat.eqb (fst h)) l = true).
  { apply existsb_exists. exists (fst h).
    split; [apply A; now left|apply Nat.eqb_refl]. }
  rewrite E. simpl. apply IH. intros x Hx. apply A. now right.
Qed.

(** closing the watchers of the set closes every open watcher *)
Lemma close_all_synced (ws : WatchSet) :
  synced ws ->
  close_all ws = mkWatchSet (fileWatchers ws) [] (next_watcher ws).
Proof.
  intros [S _]. unfold close_all. rewrite close_each. f_equal.
  apply none_left_open. intros h Hh. rewrite <- S. now apply in_map.
Qed.

(** one turn of the loop of [setupWatchers] *)
Lemma watch_step (directory : string) (ws : WatchSet) :
  synced ws ->
  match watch watchable directory ws with
  | (Returned watcher, ws') => add_watcher watcher ws'
  | (Threw _, ws') => ws'
  end =
  if watchable directory then
    mkWatchSet (fileWatchers ws ++ [next_watcher ws])
      (open_handles ws ++ [(next_watcher ws, directory)])
      (S (next_watcher ws))
  else ws.
Proof.
  intros [_ Sf]. unfold watch. destruct (watchable directory); [|reflexivity].
  unfold add_watcher. simpl.
  assert (F : existsb (Nat.eqb (next_watcher ws)) (fileWatchers ws) = false).
  { destruct (existsb _ _) eqn:E; auto. exfalso.
    apply existsb_exists in E as (w & Hw & Eq).
    apply Nat.eqb_eq in Eq. subst w. specialize (Sf _ Hw). lia. }
  now rewrite F.
Qed.

Lemma build_spec (directories : list string) :
  forall ws,
    synced ws ->
    let ws' :=
      fold_left
        (fun ws directory =>
           match watch watchable directory ws with
           | (Returned watcher, ws') => add_watcher watcher ws'
           | (Threw _, ws') => ws'
           end) directories ws in
    synced ws' /\
    map snd (open_handles ws') =
      (map snd (open_handles ws) ++ filter watchable directories)%list /\
    (next_watcher ws <= next_watcher ws')%nat /\
    (forall w, In w (fileWatchers ws') ->
               In w (fileWatchers ws) \/ (next_watcher ws <= w)%nat).
Proof.
  induction directories as [|directory directories IH]; intros ws Hs;
    cbn [fold_left filter].
  - rewrite app_nil_r. auto.
  - rewrite watch_step by exact Hs. destruct (watchable directory) eqn:Ew.
    + match goal with |- context [fold_left _ directories ?s] =>
        set (s1 := s)
      end.
      assert (S1 : synced s1).
      { destruct Hs as [S1 S2]. constructor; simpl.
        - rewrite map_app. simpl. now rewrite S1.
        - intros w Hw. apply in_app_or in Hw as [Hw|[<-|[]]];
            [specialize (S2 w Hw)|]; lia. }
      destruct (IH s1 S1) as (I1 & I2 & I3 & I4). cbv zeta in *.
      split; [exact I1|]. split.
      * rewrite I2. unfold s1. cbn [open_handles]. rewrite map_app. simpl.
        now rewrite <- app_assoc.
      * assert (N1 : next_watcher s1 = S (next_watcher ws)) by reflexivity.
        assert (F1 : fileWatchers s1 =
                     (fileWatchers ws ++ [next_watcher ws])%list)
          by reflexivity.
        split; [lia|]. intros w Hw. destruct (I4 w Hw) as [H|H]; [|right; lia].
        rewrite F1 in H.
        apply in_app_or in H as [H|[<-|[]]]; [now left|right; lia].
    + apply IH. exact Hs.
Qed.

Lemma setupWatchers_spec (directories : list string) (ws : WatchSet) :
  synced ws ->
  let ws' := setupWatchers watchable directories ws in
  synced ws' /\
  map snd (open_handles ws') = filter watchable directories /\
  (forall w, In w (fileWatchers ws) ->
             ~ In w (fileWatchers ws') /\
             ~ In w (map fst (open_handles ws'))).
Proof.
  intros Hs ws'. subst ws'. unfold setupWatchers.
  rewrite (close_all_synced ws Hs). unfold clear_set. simpl.
  destruct (build_spec directories (mkWatchSet [] [] (next_watcher ws)))
    as (I1 & I2 & _ & I4).
  { constructor; simpl; [reflexivity|contradiction]. }
  simpl in *. split; [exact I1|]. split; [exact I2|].
  intros w Hw. destruct Hs as [_ Sf]. specialize (Sf w Hw).
  assert (N : ~ In w (fileWatchers
                        (fold_left
                           (fun ws0 directory =>
                              match watch watchable directory ws0 with
                              | (Returned watcher, ws'0) =>
                                  add_watcher watcher ws'0
                              | (Threw _, ws'0) => ws'0
                              end) directories
                           (mkWatchSet [] [] (next_watcher ws))))).
  { intros H. destruct (I4 w H) as [[]|L]. lia. }
  split; [exact N|]. destruct I1 as [I1 _]. now rewrite I1.
Qed.

(** X10.  [setupWatchers] leaves watched exactly the requested directories
    that could be opened, in the order requested; every watcher of the set
    it found is closed and none of them is in the new set; no watcher is
    open outside the set. *)
Theorem setupWatchers_rebuilds (directories : list string) (ws : WatchSet) :
  synced ws ->
  let ws' := setupWatchers watchable directories ws in
  synced ws' /\
  map snd (open_handles ws') = filter watchable directories /\
  (forall w, In w (fileWatchers ws) ->
             ~ In w (fileWatchers ws') /\
             ~ In w (map fst (open_handles ws'))).
Proof. exact (setupWatchers_spec directories ws). Qed.

Lemma setupWatchers_size (directories : list string) (ws : WatchSet) :
  synced ws ->
  length (fileWatchers (setupWatchers watchable directories ws)) =
  length (filter watchable directories).
Proof.
  intros Hs.
  destruct (setupWatchers_spec directories ws Hs) as ([E _] & D & _).
  rewrite <- E, length_map, <- D, length_map. reflexivity.
Qed.

Lemma filter_shorter {A : Type} (p : A -> bool) (l : list A) :
  existsb (fun x => negb (p x)) l = true ->
  (length (filter p l) < length l)%nat.
Proof.
  induction l as [|x l IH]; simpl; [discriminate|].
  pose proof (filter_length_le p l) as Hl.
  destruct (p x); simpl; intros H; [specialize (IH H)|]; lia.
Qed.

Lemma filter_all {A : Type} (p : A -> bool) (l : list A) :
  forallb p l = true -> filter p l = l.
Proof.
  induction l as [|x l IH]; simpl; auto.
  intros H. apply andb_prop in H as [Hx H]. rewrite Hx. f_equal. auto.
Qed.

(** X11.  The periodic refresh compares counts only.  After a rebuild in
    which every directory could be opened, a refresh with as many
    directories, whichever they are, changes nothing.  After a rebuild in
    which some directory could not be opened, the refresh with the same
    directories rebuilds the whole set again. *)
Theorem refresh_compares_counts (directories : list string) (ws : WatchSet) :
  synced ws ->
  let ws' := setupWatchers watchable directories ws in
  (forallb watchable directories = true ->
   forall newDirectories,
     length newDirectories = length directories ->
     refresh watchable newDirectories ws' = ws') /\
  (existsb (fun d => negb (watchable d)) directories = true ->
   refresh watchable directories ws' = setupWatchers watchable directories ws').
Proof.
  intros Hs ws'. subst ws'. unfold refresh.
  rewrite (setupWatchers_size directories ws Hs). split.
  - intros A newDirectories E. rewrite (filter_all _ _ A), E.
    now rewrite Nat.eqb_refl.
  - intros E. apply filter_shorter in E.
    destruct (Nat.eqb_spec (length directories)
                (length (filter watchable directories))); [lia|reflexivity].
Qed.

End WatchSetProperties.

Lemma synced_no_watchers : synced no_watchers.
Proof. constructor; simpl; [reflexivity|contradiction]. Qed.

Lemma setupWatchers_rebuilds_witness :
  map snd (open_handles
             (setupWatchers (fun d => negb (String.eqb d "/p/secret"))
                ["/p"; "/p/secret"; "/p/src"] no_watchers))
  = ["/p"; "/p/src"].
Proof.
  apply (setupWatchers_rebuilds (fun d => negb (String.eqb d "/p/secret"))
           ["/p"; "/p/secret"; "/p/src"] no_watchers synced_no_watchers).
Defined.

Lemma refresh_compares_counts_witness :
  refresh (fun _ => true) ["/p"; "/p/lib"]
    (setupWatchers (fun _ => true) ["/p"; "/p/src"] no_watchers)
  = setupWatchers (fun _ => true) ["/p"; "/p/src"] no_watchers /\
  refresh (fun d => negb (String.eqb d "/p/secret")) ["/p"; "/p/secret"]
    (setupWatchers (fun d => negb (String.eqb d "/p/secret"))
       ["/p"; "/p/secret"] no_watchers)
  = setupWatchers (fun d => negb (String.eqb d "/p/secret")) ["/p"; "/p/secret"]
      (setupWatchers (fun d => negb (String.eqb d "/p/secret"))
         ["/p"; "/p/secret"] no_watchers).
Proof.
  split.
  - apply (proj1 (refresh_compares_counts (fun _ => true) ["/p"; "/p/src"]
                    no_watchers synced_no_watchers)); reflexivity.
  - apply (proj2 (refresh_compares_counts
                    (fun d => negb (String.eqb d "/p/secret"))
                    ["/p"; "/p/secret"] no_watchers synced_no_watchers)).
    reflexivity.
Defined.

(** ** Orchestrator *)

Section DwatcherProperties.

Variable RegExp_other : string -> string -> outcome bool.
Variable join : string -> string -> string.
Variable watchable : string -> bool.
Variable resolve : string -> string.
Variable cwd : string.
Variable spawn_throws : string -> list string -> bool.

(** X12.  Without a command [dwatcher] throws before anything is touched.
    With a command, start-up takes the [process.exit(1)] branch when
    [spawn] throws, and only then, whatever the tree and the options: the
    enumeration and the opening of the watchers never get there.  When
    [spawn] returns, start-up from the initial state ends watching: the
    directories handed to the watch set begin with the watch path and hold
    no ignored directory, those among them that can be opened are watched,
    and one child is spawned and held, with the guard off and no timer
    pending. *)
Theorem dwatcher_starts (command : string) (args : list string)
    (u : UserOptions) (root : dirent) :
  let watchPath := watchPath_of resolve cwd u in
  (command = "" ->
   forall ws st,
     dwatcher RegExp_other join watchable resolve cwd spawn_throws
       command args u root ws st
     = Rejected) /\
  (command <> "" ->
   forall ws st,
     dwatcher RegExp_other join watchable resolve cwd spawn_throws
       command args u root ws st = ExitFailure <->
     spawn_throws command args = true) /\
  (command <> "" -> spawn_throws command args = false ->
   exists rest ws st,
     dwatcher RegExp_other join watchable resolve cwd spawn_throws
       command args u root no_watchers initial
     = Watching ws st (merge u) watchPath /\
     Forall (fun dir =>
               shouldIgnore RegExp_other (relativize watchPath dir)
                 (ignorePatterns (merge u)) = Returned false) rest /\
     synced ws /\
     map snd (open_handles ws) = filter watchable (watchPath :: rest) /\
     trace st = [Spawned 0 0] /\ childProcess st = Some 0%nat /\
     isRestarting st = false /\ timers st = []).
Proof.
  intros watchPath. unfold dwatcher. fold watchPath.
  destruct (traverse_spec RegExp_other join watchPath
              (ignorePatterns (merge u)) root watchPath [watchPath])
    as (added & Et & K & _).
  split; [|split].
  - intros -> ws st. reflexivity.
  - intros N ws st.
    assert (E : String.eqb command "" = false) by (now apply String.eqb_neq).
    rewrite E. unfold getWatchDirectories. rewrite Et.
    destruct (spawn_throws command args); split; auto; discriminate.
  - intros N Sp.
    assert (E : String.eqb command "" = false) by (now apply String.eqb_neq).
    rewrite E, Sp. unfold getWatchDirectories. rewrite Et. simpl app.
    destruct (setupWatchers_spec watchable (watchPath :: added)
                no_watchers synced_no_watchers) as (A & B & _).
    exists added. eexists. eexists. split; [reflexivity|].
    split; [exact K|]. split; [exact A|]. split; [exact B|].
    repeat split.
Qed.

End DwatcherProperties.

Lemma dwatcher_starts_witness :
  dwatcher no_RegExp_other join_slash (fun _ => true) (fun p => p) "/home/proj"
    nul_byte_throws (String "n" (String "000" "")) [] no_options sample_tree
    no_watchers initial = ExitFailure /\
  exists rest ws st,
    dwatcher no_RegExp_other join_slash (fun _ => true) (fun p => p) "/home/proj"
      nul_byte_throws "node" ["server.js"] no_options sample_tree
      no_watchers initial
    = Watching ws st (merge no_options) "/home/proj" /\
    Forall (fun dir =>
              shouldIgnore no_RegExp_other (relativize "/home/proj" dir)
                (ignorePatterns (merge no_options)) = Returned false) rest /\
    synced ws /\
    map snd (open_handles ws) = filter (fun _ => true) ("/home/proj" :: rest) /\
    trace st = [Spawned 0 0] /\ childProcess st = Some 0%nat /\
    isRestarting st = false /\ timers st = [].
Proof.
  split.
  - apply (proj1 (proj2 (dwatcher_starts no_RegExp_other join_slash
                           (fun _ => true) (fun p => p) "/home/proj"
                           nul_byte_throws (String "n" (String "000" "")) []
                           no_options sample_tree))).
    + discriminate.
    + reflexivity.
  - apply (proj2 (proj2 (dwatcher_starts no_RegExp_other join_slash
                           (fun _ => true) (fun p => p) "/home/proj"
                           nul_byte_throws "node" ["server.js"] no_options
                           sample_tree))).
    + discriminate.
    + reflexivity.
Defined.

(** ** Shutdown *)

Section Shutdown.





End Shutdown.


(** ** The command line *)

Section CommandLineProperties.

Variable parseInt10 : option string -> option Z.

Lemma split_on_parts (sep : ascii) (s : string) : split_on sep s <> [].
Proof.
  destruct s as [|c s]; simpl; [discriminate|].
  destruct (c =? sep)%char; [discriminate|].
  destruct (split_on sep s); discriminate.
Qed.

(** joining the parts gives the string back *)
Lemma split_on_join (sep : ascii) (s : string) :
  String.concat (String sep "") (split_on sep s) = s.
Proof.
  induction s as [|c s IH]; simpl; auto.
  destruct (c =? sep)%char eqn:E.
  - apply Ascii.eqb_eq in E. subst c.
    destruct (split_on sep s) as [|part parts] eqn:P.
    + exfalso. now apply (split_on_parts sep s).
    + simpl in *. now rewrite IH.
  - destruct (split_on sep s) as [|part parts] eqn:P.
    + exfalso. now apply (split_on_parts sep s).
    + destruct parts as [|part' parts]; simpl in *; now rewrite IH.
Qed.

Lemma split_command_join (command : string) (commandArgs : list string) :
  String.concat " " (fst (split_command command commandArgs)
                     :: snd (split_command command commandArgs)) =
  String.concat " " (command :: commandArgs).
Proof.
  unfold split_command.
  destruct (JsString.includes command " " && (length commandArgs =? 0)%nat)
    eqn:E; [|reflexivity].
  apply andb_prop in E as [_ E]. apply Nat.eqb_eq in E.
  destruct commandArgs; [|discriminate].
  pose proof (split_on_join " " command) as J.
  destruct (split_on " " command) as [|part parts]; [reflexivity|].
  exact J.
Qed.

(** X15.  Splitting a quoted command changes nothing in the line that
    reaches the shell: the command and its arguments, joined by spaces, are
    the same before and after. *)
Theorem split_command_line (command : string) (commandArgs : list string) :
  String.concat " " (fst (split_command command commandArgs)
                     :: snd (split_command command commandArgs)) =
  String.concat " " (command :: commandArgs).
Proof. exact (split_command_join command commandArgs). Qed.

Lemma debounce_of_nonzero (value : option string) :
  debounce_of parseInt10 value <> 0%Z.
Proof.
  unfold debounce_of. destruct (parseInt10 value) as [n|]; [|discriminate].
  destruct (n =? 0)%Z eqn:E; [discriminate|]. now apply Z.eqb_neq.
Qed.

Lemma extensions_of_dotted (value : string) :
  Forall (fun ext => prefix "." ext = true) (extensions_of value).
Proof.
  unfold extensions_of. apply Forall_map, Forall_forall. intros ext _.
  destruct (prefix "." ext) eqn:E; [exact E|destruct ext; reflexivity].
Qed.

Lemma well_parsed_options (tokens : list string) (command : string)
    (commandArgs : list string) (o o' : CliOptions) :
  c_debounceMs o' = c_debounceMs o ->
  c_ignorePatterns o' = c_ignorePatterns o ->
  c_watchExtensions o' = c_watchExtensions o ->
  well_parsed tokens command commandArgs o ->
  well_parsed tokens command commandArgs o'.
Proof.
  intros A B C [W1 W2 W3 W4 W5]. constructor; rewrite ?A, ?B, ?C; auto.
Qed.

Lemma well_parsed_debounce (tokens : list string) (command : string)
    (commandArgs : list string) (o : CliOptions) (value : option string) :
  well_parsed tokens command commandArgs o ->
  well_parsed tokens command commandArgs
    (mkCliOptions (Some (debounce_of parseInt10 value)) (c_ignorePatterns o)
       (c_watchExtensions o) (c_verbose o) (c_clear o) (c_watchPath o)).
Proof.
  intros [W1 W2 W3 W4 W5]. constructor; simpl; auto.
  intros H. inversion H as [E]. now apply (debounce_of_nonzero value).
Qed.

Lemma well_parsed_ignore (tokens : list string) (command : string)
    (commandArgs : list string) (o : CliOptions) (value : option string) :
  well_parsed tokens command commandArgs o ->
  well_parsed tokens command commandArgs (push_ignore value o).
Proof.
  intros [W1 W2 W3 W4 W5]. constructor; simpl; auto.
  intros patterns H. inversion H; subst. clear H.
  destruct (c_ignorePatterns o) as [old|].
  - destruct (W4 old eq_refl) as [added ->].
    exists (added ++ [value])%list. now rewrite <- app_assoc.
  - now exists [value].
Qed.

Lemma well_parsed_ext (tokens : list string) (command : string)
    (commandArgs : list string) (o : CliOptions) (value : string) :
  well_parsed tokens command commandArgs o ->
  well_parsed tokens command commandArgs
    (mkCliOptions (c_debounceMs o) (c_ignorePatterns o)
       (Some (extensions_of value)) (c_verbose o) (c_clear o) (c_watchPath o)).
Proof.
  intros [W1 W2 W3 W4 W5]. constructor; simpl; auto.
  intros exts H. inversion H; subst. apply extensions_of_dotted.
Qed.

(** the loop keeps [well_parsed] *)
Lemma parse_loop_keeps (tokens : list string) (n : nat) :
  forall args command commandArgs o command' commandArgs' o',
    (length args <= n)%nat -> incl args tokens ->
    well_parsed tokens command commandArgs o ->
    parse_loop parseInt10 args command commandArgs o
    = Parsed command' commandArgs' o' ->
    well_parsed tokens command' commandArgs' o'.
Proof.
  induction n as [|n IH]; intros args command commandArgs o c' a' o' L I W H.
  - destruct args; [|simpl in L; lia]. simpl in H. now inversion H; subst.
  - destruct args as [|arg rest]; [simpl in H; now inversion H; subst|].
    simpl in L. assert (Ir : incl rest tokens)
      by (intros x Hx; apply I; now right).
    assert (Ia : In arg tokens) by (apply I; now left).
    cbn [parse_loop] in H. destruct (prefix "--" arg) eqn:Ep.
    + destruct (String.eqb arg "--debounce").
      { destruct rest as [|value rest'].
        - inversion H; subst. now apply well_parsed_debounce.
        - apply (IH rest' _ _ _ _ _ _) in H; auto;
            [simpl in L; lia|intros x Hx; apply Ir; now right|].
          now apply well_parsed_debounce. }
      destruct (String.eqb arg "--ignore").
      { destruct rest as [|value rest'].
        - inversion H; subst. now apply well_parsed_ignore.
        - apply (IH rest' _ _ _ _ _ _) in H; auto;
            [simpl in L; lia|intros x Hx; apply Ir; now right|].
          now apply well_parsed_ignore. }
      destruct (String.eqb arg "--ext").
      { destruct rest as [|value rest']; [discriminate|].
        apply (IH rest' _ _ _ _ _ _) in H; auto;
          [simpl in L; lia|intros x Hx; apply Ir; now right|].
        now apply well_parsed_ext. }
      destruct (String.eqb arg "--verbose").
      { apply (IH rest _ _ _ _ _ _) in H; auto; [lia|].
        eapply well_parsed_options; [| | |exact W]; reflexivity. }
      destruct (String.eqb arg "--no-clear").
      { apply (IH rest _ _ _ _ _ _) in H; auto; [lia|].
        eapply well_parsed_options; [| | |exact W]; reflexivity. }
      destruct (String.eqb arg "--watch").
      { destruct rest as [|value rest'].
        - inversion H; subst.
          eapply well_parsed_options; [| | |exact W]; reflexivity.
        - apply (IH rest' _ _ _ _ _ _) in H; auto;
            [simpl in L; lia|intros x Hx; apply Ir; now right|].
          eapply well_parsed_options; [| | |exact W]; reflexivity. }
      apply (IH rest _ _ _ _ _ _) in H; auto. lia.
    + destruct W as [W1 W2 W3 W4 W5]. destruct (String.eqb command "").
      * apply (IH rest _ _ _ _ _ _) in H; auto; [lia|].
        constructor; auto.
      * apply (IH rest _ _ _ _ _ _) in H; auto; [lia|].
        constructor; auto. apply Forall_app. split; [exact W2|].
        constructor; [auto|constructor].
Qed.

Lemma well_parsed_start (tokens : list string) :
  well_parsed tokens "" [] no_cli_options.
Proof.
  constructor; simpl; auto; discriminate.
Qed.

(** what [run] hands to [dwatcher] comes out of the loop *)
Lemma cli_run_launch (argv : list string) (command : string)
    (commandArgs : list string) (o : CliOptions) :
  cli_run parseInt10 argv = Launch command commandArgs o ->
  exists command0 commandArgs0,
    command0 <> "" /\
    well_parsed (skipn 2 argv) command0 commandArgs0 o /\
    split_command command0 commandArgs0 = (command, commandArgs).
Proof.
  unfold cli_run. destruct (_ || _ || _); [discriminate|].
  destruct (parse_loop parseInt10 (skipn 2 argv) "" [] no_cli_options)
    as [c0 a0 o0|] eqn:P; [|discriminate].
  destruct (String.eqb c0 "") eqn:E; [discriminate|].
  destruct (split_command c0 a0) as [c a] eqn:S0. intros H. inversion H; subst.
  exists c0, a0. split; [now apply String.eqb_neq|]. split; [|exact S0].
  eapply (parse_loop_keeps (skipn 2 argv) (length (skipn 2 argv))); eauto.
  - apply incl_refl.
  - apply well_parsed_start.
Qed.

(** X14.  The line that the child is started with is made of arguments of
    the command line that do not begin with [--], joined by spaces: an
    option of the child given unquoted, known to dwatcher or not, is never
    passed on. *)
Theorem cli_drops_options (argv : list string) (command : string)
    (commandArgs : list string) (o : CliOptions) :
  cli_run parseInt10 argv = Launch command commandArgs o ->
  exists tokens,
    tokens <> [] /\
    Forall (fun t => In t (skipn 2 argv) /\ prefix "--" t = false) tokens /\
    String.concat " " (command :: commandArgs) = String.concat " " tokens.
Proof.
  intros H. apply cli_run_launch in H as (c0 & a0 & N & [W1 W2 _ _ _] & S0).
  exists (c0 :: a0). split; [discriminate|]. split.
  - constructor; [|exact W2]. destruct W1 as [W1|W1]; [contradiction|exact W1].
  - pose proof (split_command_join c0 a0) as J. rewrite S0 in J. exact J.
Qed.

Lemma pushed_push (current : option (list (option string)))
    (value : option string) (values : list (option string)) (o : CliOptions) :
  c_ignorePatterns o = current ->
  pushed (c_ignorePatterns (push_ignore value o)) values =
  pushed current (value :: values).
Proof.
  intros <-. unfold pushed, push_ignore. simpl.
  destruct values as [|v values]; [reflexivity|].
  now rewrite <- app_assoc.
Qed.

(** the loop pushes the values of the [--ignore] options, in order *)
Lemma parse_loop_ignore (n : nat) :
  forall args command commandArgs o command' commandArgs' o',
    (length args <= n)%nat ->
    parse_loop parseInt10 args command commandArgs o
    = Parsed command' commandArgs' o' ->
    c_ignorePatterns o' = pushed (c_ignorePatterns o) (ignore_values args).
Proof.
  induction n as [|n IH]; intros args command commandArgs o c' a' o' L H.
  - destruct args; [|simpl in L; lia]. simpl in H. now inversion H; subst.
  - destruct args as [|arg rest]; [simpl in H; now inversion H; subst|].
    simpl in L. cbn [parse_loop] in H. cbn [ignore_values].
    destruct (prefix "--" arg) eqn:Ep.
    + destruct (String.eqb arg "--debounce") eqn:E1.
      { apply String.eqb_eq in E1. subst arg. simpl.
        destruct rest as [|value rest'].
        - now inversion H; subst.
        - apply IH in H; [exact H|simpl in L; lia]. }
      destruct (String.eqb arg "--ignore") eqn:E2.
      { destruct rest as [|value rest'].
        - inversion H; subst. reflexivity.
        - apply IH in H; [|simpl in L; lia]. rewrite H.
          now apply pushed_push. }
      destruct (String.eqb arg "--ext") eqn:E3.
      { simpl. destruct rest as [|value rest']; [discriminate|].
        apply IH in H; [exact H|simpl in L; lia]. }
      destruct (String.eqb arg "--verbose") eqn:E4.
      { apply String.eqb_eq in E4. subst arg. simpl.
        apply IH in H; [exact H|lia]. }
      destruct (String.eqb arg "--no-clear") eqn:E5.
      { apply String.eqb_eq in E5. subst arg. simpl.
        apply IH in H; [exact H|lia]. }
      destruct (String.eqb arg "--watch") eqn:E6.
      { simpl. destruct rest as [|value rest'].
        - now inversion H; subst.
        - apply IH in H; [exact H|simpl in L; lia]. }
      simpl. apply IH in H; [exact H|lia].
    + assert (N : forall option, prefix "--" option = true ->
                                 String.eqb arg option = false).
      { intros option Ho. destruct (String.eqb_spec arg option); auto.
        subst arg. congruence. }
      rewrite !N by reflexivity. simpl.
      destruct (String.eqb command ""); (apply IH in H; [exact H|lia]).
Qed.

(** X16.  When the command line launches, [ignorePatterns] is left unset
    if no [--ignore] was read; otherwise it is the default patterns, all of
    them and in order, followed by the values given with [--ignore], in the
    order given. *)
Theorem cli_ignore_keeps_defaults (argv : list string) (command : string)
    (commandArgs : list string) (o : CliOptions) :
  cli_run parseInt10 argv = Launch command commandArgs o ->
  c_ignorePatterns o =
  match ignore_values (skipn 2 argv) with
  | [] => None
  | values =>
      Some (map Some (ignorePatterns DEFAULT_CONFIG) ++ values)%list
  end.
Proof.
  unfold cli_run. destruct (_ || _ || _); [discriminate|].
  destruct (parse_loop parseInt10 (skipn 2 argv) "" [] no_cli_options)
    as [c0 a0 o0|] eqn:P; [|discriminate].
  destruct (String.eqb c0 ""); [discriminate|].
  destruct (split_command c0 a0). intros H. inversion H; subst.
  apply (parse_loop_ignore (length (skipn 2 argv))) in P; [|lia].
  rewrite P. unfold pushed.
  destruct (ignore_values (skipn 2 argv)); reflexivity.
Qed.


(** X18.  Every extension set with [--ext] begins with a dot, given with
    it or not. *)
Theorem cli_extensions_dotted (argv : list string) (command : string)
    (commandArgs : list string) (o : CliOptions) (exts : list string) :
  cli_run parseInt10 argv = Launch command commandArgs o ->
  c_watchExtensions o = Some exts ->
  Forall (fun ext => prefix "." ext = true) exts.
Proof.
  intros H. apply cli_run_launch in H as (c0 & a0 & _ & [_ _ _ _ W5] & _).
  apply W5.
Qed.

End CommandLineProperties.

(** the example of the README, [dwatcher node app.js --port 3000] *)
Lemma cli_drops_options_witness :
  exists tokens,
    tokens <> [] /\
    Forall (fun t => In t ["node"; "app.js"; "--port"; "3000"] /\
                     prefix "--" t = false) tokens /\
    String.concat " " ("node" :: ["app.js"; "3000"]) = String.concat " " tokens.
Proof.
  apply (cli_drops_options sample_parseInt
           ["node"; "dwatcher"; "node"; "app.js"; "--port"; "3000"]
           "node" ["app.js"; "3000"] no_cli_options).
  reflexivity.
Defined.

Lemma cli_ignore_keeps_defaults_witness :
  c_ignorePatterns
    (mkCliOptions None
       (Some (map Some (ignorePatterns DEFAULT_CONFIG)
              ++ [Some "logs/**"; Some "*.bak"])%list)
       None (Some true) None None)
  = Some (map Some (ignorePatterns DEFAULT_CONFIG)
          ++ [Some "logs/**"; Some "*.bak"])%list.
Proof.
  exact (cli_ignore_keeps_defaults sample_parseInt
           ["node"; "dwatcher"; "--ignore"; "logs/**"; "node"; "a.js";
            "--verbose"; "--ignore"; "*.bak"]
           "node" ["a.js"]
           (mkCliOptions None
              (Some (map Some (ignorePatterns DEFAULT_CONFIG)
                     ++ [Some "logs/**"; Some "*.bak"])%list)
              None (Some true) None None)
           eq_refl).
Defined.


Lemma cli_extensions_dotted_witness :
  Forall (fun ext => prefix "." ext = true) [".js"; ".ts"].
Proof.
  apply (cli_extensions_dotted sample_parseInt
           ["node"; "dwatcher"; "--ext"; "js,.ts"; "node"; "a.js"]
           "node" ["a.js"]
           (mkCliOptions None None (Some [".js"; ".ts"]) None None None)).
  - reflexivity.
  - reflexivity.
Defined.

(** ** Patterns that match less, and more, than they seem to *)

Section PatternEdges.

Variable RegExp_other : string -> string -> outcome bool.

Lemma length_append (a b : string) :
  String.length (a ++ b) = (String.length a + String.length b)%nat.
Proof. induction a as [|c a IH]; simpl; congruence. Qed.

Lemma Matches_min_length (re : Regex.regex) (m : string) :
  Matches re m -> (min_length re <= String.length m)%nat.
Proof.
  unfold min_length.
  induction 1 as [|k re a s Hk M IH|k re s M IH|k re a s Hk M IH]; simpl in *;
    lia.
Qed.

Lemma min_length_glob (dir : string) :
  starless dir = true -> min_length (glob_regex dir) = String.length dir.
Proof.
  unfold starless, min_length. induction dir as [|c dir IH]; simpl; auto.
  intros H. apply andb_prop in H as [Hc H]. apply negb_true_iff in Hc.
  rewrite Hc. destruct (c =? ".")%char; simpl; now rewrite IH.
Qed.

(** X19.  A pattern made of a prefix and a closing pair of stars, the
    prefix without a star and without a syntax character of regular
    expressions other than the dot, matches no path that is not longer
    than the prefix: [node_modules/**] does not match the path
    [node_modules] itself. *)
Theorem trailing_star2_spares_prefix (dir path : string) :
  plain dir = true -> starless dir = true ->
  (String.length path <= String.length dir)%nat ->
  pattern_test RegExp_other path (dir ++ "**") = Returned false.
Proof.
  intros Hp Hs L. unfold pattern_test, RegExp_test.
  assert (E : JsString.includes (dir ++ "**") "**" = true).
  { apply includes_spec. exists dir, "". reflexivity. }
  rewrite E, compile_trailing_star2 by assumption. f_equal.
  destruct (Regex.test _ path) eqn:T; auto. exfalso.
  apply test_spec in T as (part & (before & after & ->) & M).
  apply Matches_min_length in M. unfold min_length in M.
  rewrite filter_app, length_app in M. simpl in M.
  fold (min_length (glob_regex dir)) in M. rewrite min_length_glob in M by auto.
  rewrite !length_append in L. lia.
Qed.

Lemma pattern_test_empty (path : string) :
  pattern_test RegExp_other path "" = Returned true.
Proof.
  unfold pattern_test. simpl. f_equal. destruct path; reflexivity.
Qed.

Lemma pattern_test_star (path : string) :
  pattern_test RegExp_other path "*" = Returned true.
Proof.
  unfold pattern_test, RegExp_test. simpl. f_equal.
  rewrite test_unfold, match_here_many. reflexivity.
Qed.

(** X20.  The empty pattern and the pattern [*] ignore every path: with
    one of them in a list of patterns of the modelled fragment,
    [shouldIgnore] answers true whatever the path. *)
Theorem ignores_everything (P : list string) (path : string) :
  forallb in_fragment P = true ->
  In "" P \/ In "*" P ->
  shouldIgnore RegExp_other path P = Returned true.
Proof.
  intros F H. unfold shouldIgnore.
  apply (some_spec (pattern_test RegExp_other path) P).
  - intros x Hx. apply pattern_test_total.
    rewrite forallb_forall in F. auto.
  - destruct H as [H|H].
    + exists "". split; [exact H|apply pattern_test_empty].
    + exists "*". split; [exact H|apply pattern_test_star].
Qed.

End PatternEdges.

Lemma trailing_star2_spares_prefix_witness :
  pattern_test no_RegExp_other "node_modules" ("node_modules/" ++ "**")
  = Returned false.
Proof.
  apply (trailing_star2_spares_prefix no_RegExp_other "node_modules/"
           "node_modules"); try reflexivity.
  simpl; lia.
Defined.

Lemma ignores_everything_witness :
  shouldIgnore no_RegExp_other "src/index.js" ["*.log"; "*"] = Returned true.
Proof.
  apply (ignores_everything no_RegExp_other ["*.log"; "*"] "src/index.js").
  - reflexivity.
  - right. simpl. auto.
Defined.

(** ** The guard and its fallback *)

Section GuardBounded.

Variable command : string.
Variable args : list string.
Variable options : Options.

Lemma guard_bounded_frame (st st' : State) :
  frame st st' -> guard_bounded st ->
  (isRestarting st' = true ->
   isRestarting st = true \/
   timers st' = (timers st ++
                 [mkTimer (next_handle st) (now st + 5000) ForceKill])%list) ->
  guard_bounded st'.
Proof.
  intros [A B C D] G H R. rewrite B.
  destruct (H R) as [R0|E].
  - destruct (G R0) as (t & Ht & Ea & Hd). exists t. split; [|auto].
    destruct D as [[-> _]|[-> _]]; [exact Ht|apply in_or_app; now left].
  - rewrite E. eexists. split; [apply in_or_app; right; now left|].
    simpl. split; [reflexivity|lia].
Qed.

Lemma guard_bounded_startTargetApp (st : State) :
  guard_bounded st -> guard_bounded (startTargetApp command args options st).
Proof.
  intros G. apply (guard_bounded_frame st); auto.
  - apply frame_startTargetApp.
  - rewrite startTargetApp_eq. unfold killTargetApp, spawn. simpl.
    destruct (childProcess st) as [pid|]; simpl; auto.
    intros _. right. unfold kill. simpl.
    destruct (running _); reflexivity.
Qed.

Lemma guard_bounded_fire (target : Z) (st : State) (t : timer) :
  wf st -> next_due target st = Some t ->
  guard_bounded st -> guard_bounded (fire t st).
Proof.
  intros W E G. pose proof (next_due_In _ _ _ E) as [Hin _].
  unfold fire, run_callback. destruct (action t) as [|c a o] eqn:Ea.
  - intros R. discriminate.
  - unfold restart.
    assert (G' : guard_bounded
                   (emit (Restarting
                            (now (set_now (Z.max (now st) (due t))
                                    (clearTimeout (handle t) st))))
                      (set_now (Z.max (now st) (due t))
                         (clearTimeout (handle t) st)))).
    { intros R. simpl in R. destruct (G R) as (u & Hu & Eu & Hd).
      exists u. simpl. split; [|split; [exact Eu|lia]].
      apply filter_In. split; [exact Hu|].
      apply negb_true_iff, Nat.eqb_neq. intros Eh.
      destruct W as [_ W2 _ _].
      pose proof (same_handle _ u t W2 Hu Hin Eh). subst u. congruence. }
    revert G'. generalize (emit (Restarting
                            (now (set_now (Z.max (now st) (due t))
                                    (clearTimeout (handle t) st))))
                      (set_now (Z.max (now st) (due t))
                         (clearTimeout (handle t) st))).
    intros s Gs. apply (guard_bounded_frame s); auto.
    + apply frame_startTargetApp.
    + rewrite startTargetApp_eq. unfold killTargetApp, spawn. simpl.
      destruct (childProcess s) as [pid|]; simpl; auto.
      intros _. right. unfold kill. simpl.
      destruct (running _); reflexivity.
Qed.

Lemma guard_bounded_advance (target : Z) (st : State) :
  wf st -> guard_bounded st -> guard_bounded (advance target st).
Proof.
  intros W G. unfold advance.
  assert (R : forall fuel s, wf s -> guard_bounded s ->
                guard_bounded (run_timers fuel target s)).
  { induction fuel as [|fuel IH]; simpl; intros s Ws Gs; auto.
    destruct (next_due target s) as [t|] eqn:E; auto.
    apply IH; [eapply wf_fire; eauto|eapply guard_bounded_fire; eauto]. }
  specialize (R (budget st) st W G). intros Hr. simpl in Hr.
  destruct (R Hr) as (t & Ht & Ea & Hd). exists t. simpl.
  split; [exact Ht|]. split; [exact Ea|lia].
Qed.

Lemma guard_bounded_dispatch (ev : event) (st : State) :
  guard_bounded st -> guard_bounded (dispatch command args options ev st).
Proof.
  intros G. destruct ev as [f k|pid code sig|pid]; simpl.
  - unfold handleFileChange. destruct (isRestarting st) eqn:R; [exact G|].
    intros H. destruct (debounceTimer st); simpl in H; congruence.
  - destruct (running (child pid st)); exact G.
  - destruct (running (child pid st)); exact G.
Qed.

(** X21.  The guard is never left on without end: at every point of a run
    at which it is on, a fallback is pending that turns it off and that is
    due within 5000 ms. *)
Theorem guard_is_bounded (st : State) :
  wf st -> guard_bounded st ->
  forall (schedule : list (Z * event)) (T : Z),
    guard_bounded (advance T (run command args options schedule st)).
Proof.
  intros W G schedule T.
  assert (R : wf (run command args options schedule st) /\
              guard_bounded (run command args options schedule st)).
  { revert st W G. induction schedule as [|[t ev] schedule IH];
      intros st W G; simpl; [auto|].
    apply IH.
    - apply wf_dispatch. now apply wf_advance.
    - apply guard_bounded_dispatch. now apply guard_bounded_advance. }
  destruct R as [Wr Gr]. now apply guard_bounded_advance.
Qed.

End GuardBounded.

Lemma guard_is_bounded_witness :
  guard_bounded
    (advance 200 (run "node" ["server.js"] sample_options [(0%Z, change)]
                    started)).
Proof.
  apply (guard_is_bounded "node" ["server.js"] sample_options started
           wf_started).
  intros H. discriminate.
Defined.

Section RefreshProperties.

Variable RegExp_other : string -> string -> outcome bool.
Variable join : string -> string -> string.
Variable watchable : string -> bool.

(** one tick leaves the set as it is or rebuilds it for what it found *)
Lemma refresh_tick_spec (watchPath : string) (config : Options)
    (root : dirent) (ws : WatchSet) :
  synced ws ->
  let ws' := refresh_tick RegExp_other join watchable watchPath config root ws in
  synced ws' /\
  (ws' = ws \/
   exists directories,
     getWatchDirectories RegExp_other join watchPath (ignorePatterns config)
       root = Returned directories /\
     map snd (open_handles ws') = filter watchable directories).
Proof.
  intros Hs ws'. subst ws'. unfold refresh_tick.
  destruct (getWatchDirectories RegExp_other join watchPath
              (ignorePatterns config) root) as [directories|e] eqn:E;
    [|now split; [|left]].
  unfold refresh.
  destruct (negb (length directories =? length (fileWatchers ws))%nat);
    [|now split; [|left]].
  destruct (setupWatchers_spec watchable directories ws Hs) as (A & B & _).
  split; [exact A|]. right. now exists directories.
Qed.

(** X22.  However the tree changes from one tick of the refresh to the
    next, after any number of ticks no watcher is open outside
    [fileWatchers], and the set is as it was before the ticks or watches
    exactly the directories that one of the ticks listed and that could be
    opened. *)
Theorem refresh_keeps_synced (watchPath : string) (config : Options)
    (ws : WatchSet) :
  synced ws ->
  forall roots : list dirent,
    let ws' :=
      refresh_ticks RegExp_other join watchable watchPath config roots ws in
    synced ws' /\
    (ws' = ws \/
     exists root directories,
       In root roots /\
       getWatchDirectories RegExp_other join watchPath (ignorePatterns config)
         root = Returned directories /\
       map snd (open_handles ws') = filter watchable directories).
Proof.
  intros Hs roots. revert ws Hs.
  induction roots as [|root roots IH]; intros ws Hs; unfold refresh_ticks;
    simpl; [now split; [|left]|].
  destruct (refresh_tick_spec watchPath config root ws Hs) as [S1 F1].
  destruct (IH _ S1) as [Sn Fn]. unfold refresh_ticks in Sn, Fn.
  split; [exact Sn|].
  destruct Fn as [Fn|(r & d & I & G & M)].
  - rewrite Fn. destruct F1 as [F1|(d & G & M)].
    + left. exact F1.
    + right. exists root, d. split; [now left|]. now split.
  - right. exists r, d. split; [now right|]. now split.
Qed.

End RefreshProperties.

Lemma refresh_keeps_synced_witness :
  synced (refresh_ticks no_RegExp_other join_slash
            (fun d => negb (String.eqb d "/home/proj/src")) "/home/proj"
            sample_options [sample_tree; sample_tree] no_watchers).
Proof.
  exact (proj1 (refresh_keeps_synced no_RegExp_other join_slash
                  (fun d => negb (String.eqb d "/home/proj/src")) "/home/proj"
                  sample_options no_watchers synced_no_watchers
                  [sample_tree; sample_tree])).
Defined.

Section CommandLineErrors.

Variable parseInt10 : option string -> option Z.

(** the loop throws at [--ext] only, and only when nothing follows it *)
Lemma parse_loop_throws (n : nat) :
  forall (args : list string) (command : string) (commandArgs : list string)
         (o : CliOptions),
    (length args <= n)%nat ->
    parse_loop parseInt10 args command commandArgs o = ExtMissing ->
    exists front, args = (front ++ ["--ext"])%list.
Proof.
  induction n as [|n IH]; intros args command commandArgs o L;
    destruct args as [|arg rest]; cbn [parse_loop]; try discriminate;
    simpl in L; [lia|].
  assert (one : forall c a o',
            parse_loop parseInt10 rest c a o' = ExtMissing ->
            exists front, arg :: rest = (front ++ ["--ext"])%list).
  { intros c a o' H. apply IH in H as [front ->]; [|lia].
    now exists (arg :: front). }
  assert (two : forall value rest' c a o',
            rest = value :: rest' ->
            parse_loop parseInt10 rest' c a o' = ExtMissing ->
            exists front, arg :: rest = (front ++ ["--ext"])%list).
  { intros value rest' c a o' -> H. simpl in L.
    apply IH in H as [front ->]; [|lia].
    now exists (arg :: value :: front). }
  destruct (prefix "--" arg).
  - destruct (String.eqb arg "--debounce").
    { destruct rest as [|value rest']; [discriminate|].
      now apply (two value rest'). }
    destruct (String.eqb arg "--ignore").
    { destruct rest as [|value rest']; [discriminate|].
      now apply (two value rest'). }
    destruct (String.eqb arg "--ext") eqn:E.
    { apply String.eqb_eq in E. subst arg.
      destruct rest as [|value rest']; [now exists []|].
      now apply (two value rest'). }
    destruct (String.eqb arg "--verbose"); [now apply one|].
    destruct (String.eqb arg "--no-clear"); [now apply one|].
    destruct (String.eqb arg "--watch").
    { destruct rest as [|value rest']; [discriminate|].
      now apply (two value rest'). }
    now apply one.
  - destruct (String.eqb command ""); now apply one.
Qed.

(** X23.  Reading the command line throws only when its last argument is
    [--ext]: an option [--debounce], [--ignore] or [--watch] that comes
    last, without its value, does not throw. *)
Theorem cli_throws_on_trailing_ext (argv : list string) :
  cli_run parseInt10 argv = CliThrows ->
  exists front, skipn 2 argv = (front ++ ["--ext"])%list.
Proof.
  unfold cli_run. destruct (_ || _ || _); [discriminate|].
  destruct (parse_loop parseInt10 (skipn 2 argv) "" [] no_cli_options)
    as [c0 a0 o0|] eqn:P.
  - destruct (String.eqb c0 ""); [discriminate|].
    destruct (split_command c0 a0). discriminate.
  - intros _. now apply (parse_loop_throws (length (skipn 2 argv))) in P.
Qed.

End CommandLineErrors.

Lemma cli_throws_on_trailing_ext_witness :
  exists front, ["app.js"; "--ext"] = (front ++ ["--ext"])%list.
Proof.
  apply (cli_throws_on_trailing_ext sample_parseInt
           ["node"; "dwatcher"; "app.js"; "--ext"]).
  reflexivity.
Defined.
